(** * jcache: the BoltDB-backed storage, embedded in Rocq

    The development follows the Go sources:

    - [server/storage]        : [Item], its casts, [IsAlive], [SetTTL],
                                [getExpireTime] and the error values;
    - [server/storage/boltdb] : the storage built on a BoltDB bucket, with
                                [encoding/gob] as the record codec and a
                                periodic sweep ([gc]).

    Three libraries lie outside the repository and are modelled by their
    contracts:

    - [time]: an instant is the number of nanoseconds since the zero
      instant of [time.Time]; a [Duration] is a signed 64-bit count of
      nanoseconds, with Go's wrap-around. Every call of [time.Now()] is an
      explicit argument of the function that makes it.
    - [encoding/gob]: a codec class [Gob] with the laws that a record which
      was encoded decodes to the same [Item], that values of the registered
      types encode, and that only such values come out of the decoder
      (a [*list.List] is not registered). Arbitrary bytes need not decode.
    - [bolt]: a bucket is a finite map from keys to byte strings, traversed
      by a cursor in key order; [db.Update] commits the bucket its function
      leaves behind unless the function returns an error, in which case the
      bucket is rolled back. A bucket holds records under the keys bolt
      takes only, and [Put] refuses the others as bolt does: the blank
      key and a key of more than 32768 bytes. What stays outside the
      model: I/O errors, a failing commit, bolt's limit of 2^31 - 2 bytes
      on the size of one value, and the life time of the byte slices a
      cursor hands out, which are plain values here. *)

From Stdlib Require Import ZArith String Ascii List Lia.
From Stdlib.Strings Require Import Byte.
From stdpp Require Import gmap strings list fin_maps sorting.

Local Open Scope Z_scope.

Abbreviation bytes := (list byte).

(** ** Fixed-width integers *)

(** Two's complement reading of the low 64 bits: the value of a Go [int64]
    after a conversion or an arithmetic operation. A [uint64] argument
    such as a ttl is a [Z] between 0 and [2^64 - 1]. *)
Definition int64 (z : Z) : Z := (z + 2 ^ 63) mod 2 ^ 64 - 2 ^ 63.

(** The widest count of seconds whose nanoseconds fit an [int64]:
    [MaxInt64 / 10^9]. *)
Definition MaxSeconds : Z := 9223372036.

(** ** package time *)

Module time.

(** Nanoseconds since the zero instant (January 1, year 1, 00:00 UTC). *)
Definition Time := Z.

(** [type Duration int64], in nanoseconds. *)
Definition Duration := Z.

Definition Second : Duration := 1000000000.

(** The conversion [Duration(n)] of an integer. *)
Definition ToDuration (n : Z) : Duration := int64 n.

(** The product [d * e] of two durations, which wraps around. *)
Definition mul (d e : Duration) : Duration := int64 (d * e).

Definition IsZero (t : Time) : bool := t =? 0.

(** [t.After(u)]: [t] is strictly later than [u]. *)
Definition After (t u : Time) : bool := u <? t.

Definition Add (t : Time) (d : Duration) : Time := t + d.

End time.

Abbreviation Time := time.Time.

(** ** package storage: errors *)

Inductive error : Set :=
| KeyNotExistsError
| KeyAlreadyExistsError
| ListEmptyError
| FieldNotExistError
| KeyStringTypeError
| KeyHashTypeError
| KeyListTypeError
| notSupportedError          (* boltdb: "Operation is not supported by BoltDB storage" *)
| gobError                   (* an error of the encoder or the decoder *)
| ErrKeyRequired             (* bolt: "key required" *)
| ErrKeyTooLarge.            (* bolt: "key too large" *)

Global Instance error_eq_dec : EqDecision error.
Proof. solve_decision. Defined.

(** A Go result pair [(value, err)]: either the value or the error. *)
Inductive result (A : Type) : Type :=
| Ok (a : A)
| Err (e : error).
Arguments Ok {A} a.
Arguments Err {A} e.

(** ** package storage: Item *)

(** Modelled from the spec: [Hash], declared in a source file that is not
    part of the sources at hand; the spec has it a mapping from field
    names to strings with unique keys, and [HashGetAll] returns it as a
    [map[string]string]. *)
Abbreviation Hash := (gmap string string).

(** The dynamic type of [Item.Value] ([interface{}] in the source): a string,
    a [Hash] or a [*list.List]. *)
Inductive AnyValue : Type :=
| StringValue (s : string)
| HashValue (h : Hash)
| ListValue (l : list string).

Record Item : Type := mkItem {
  Value : AnyValue;
  ExpireTime : Time
}.

(** [getExpireTime]; [now] is the reading of [time.Now()], taken only when
    [ttl > 0]. The zero instant is the result otherwise. *)
Definition getExpireTime (now : Time) (ttl : Z) : Time :=
  if 0 <? ttl
  then time.Add now (time.mul (time.ToDuration ttl) time.Second)
  else 0.

Definition NewItem (now : Time) (value : AnyValue) (ttl : Z) : Item :=
  {| Value := value; ExpireTime := getExpireTime now ttl |}.

Definition CastString (i : Item) : result string :=
  match Value i with
  | StringValue value => Ok value
  | _ => Err KeyStringTypeError
  end.

Definition CastHash (i : Item) : result Hash :=
  match Value i with
  | HashValue hash => Ok hash
  | _ => Err KeyHashTypeError
  end.

Definition CastList (i : Item) : result (list string) :=
  match Value i with
  | ListValue l => Ok l
  | _ => Err KeyListTypeError
  end.

(** [IsAlive]; [now] is the reading of [time.Now()]. *)
Definition IsAlive (now : Time) (i : Item) : bool :=
  time.IsZero (ExpireTime i) || time.After (ExpireTime i) now.

Definition SetTTL (now : Time) (ttl : Z) (i : Item) : Item :=
  {| Value := Value i; ExpireTime := getExpireTime now ttl |}.

(** Modelled from the spec: [Hash.GetValue], the lookup of a field of a
    hash, whose source file is not part of the sources at hand. The spec
    gives [FieldNotExist] as the error of [HashGet] and [HashDelete] on a
    field that the hash does not have. *)
Definition GetValue (hash : Hash) (field : string) : result string :=
  match hash !! field with
  | Some value => Ok value
  | None => Err FieldNotExistError
  end.

(** ** encoding/gob *)

(** The types that [init] registers, plus [string], which gob knows. *)
Definition registered (v : AnyValue) : bool :=
  match v with
  | StringValue _ | HashValue _ => true
  | ListValue _ => false
  end.

Class Gob : Type := {
  gobEncode : Item -> option bytes;
  gobDecode : bytes -> option Item;
  gobEncode_registered :
    forall i, registered (Value i) = true -> is_Some (gobEncode i);
  gobDecode_Encode :
    forall i b, gobEncode i = Some b -> gobDecode b = Some i;
  gobDecode_registered :
    forall b i, gobDecode b = Some i -> registered (Value i) = true
}.

Definition Encode `{Gob} (i : Item) : result bytes :=
  match gobEncode i with
  | Some b => Ok b
  | None => Err gobError
  end.

Definition Decode `{Gob} (b : bytes) : result Item :=
  match gobDecode b with
  | Some i => Ok i
  | None => Err gobError
  end.

(** ** bolt *)

(** [bolt.MaxKeySize], in bytes. *)
Definition MaxKeySize : Z := 32768.

(** The keys a bucket holds records under: not blank, and of at most
    32768 bytes. *)
Definition key_ok (key : string) : bool :=
  (0 <? Z.of_nat (String.length key))
  && (Z.of_nat (String.length key) <=? 32768).

(** A bucket never holds a record under a key [Put] refuses. *)
Definition records_ok (m : gmap string bytes) : Prop :=
  map_Forall (fun key _ => key_ok key = true) m.

Global Instance records_ok_dec m : Decision (records_ok m).
Proof. unfold records_ok. apply _. Defined.

(** A bucket: its records, all under keys that [Put] takes. *)
Definition Bucket : Type := dsig records_ok.

Global Instance bucket_lookup : Lookup string bytes Bucket :=
  fun key bucket => (`bucket) !! key.

Global Instance bucket_empty : Empty Bucket :=
  dexist (∅ : gmap string bytes) (map_Forall_empty _).

(** The bucket with [value] under [key]; a key the bucket cannot hold
    leaves it as it is. *)
Global Instance bucket_insert : Insert string bytes Bucket :=
  fun key value bucket =>
    match decide (key_ok key = true) with
    | left Hkey =>
        dexist (<[key := value]> (`bucket))
          (map_Forall_insert_2 _ _ _ _ Hkey (proj2_dsig bucket))
    | right _ => bucket
    end.

Global Instance bucket_delete : Delete string Bucket :=
  fun key bucket =>
    dexist (delete key (`bucket)) (map_Forall_delete _ _ _ (proj2_dsig bucket)).

(** Byte-wise lexicographic order of keys, the order of [bytes.Compare]
    and of [<] on Go strings. *)
Definition str_le (a b : string) : Prop := String.leb a b = true.

Global Instance str_le_dec : RelDecision str_le.
Proof. intros a b. unfold str_le. apply _. Defined.

Definition key_le (x y : string * bytes) : Prop := str_le x.1 y.1.

Global Instance key_le_dec : RelDecision key_le.
Proof. intros x y. unfold key_le. apply _. Defined.

(** [bucket.Get]: the value stored under [key]; [None] is Go's [nil]. *)
Definition bucket_Get (bucket : Bucket) (key : string) : option bytes :=
  bucket !! key.

(** [bucket.Put]: the bucket after the call and the error returned. The
    blank key and a key over [MaxKeySize] are refused and nothing is
    written. bolt's last refusal, of a value of more than 2^31 - 2 bytes,
    is left out: the codec contract puts no bound on the size of what the
    encoder returns. *)
Definition bucket_Put (bucket : Bucket) (key : string) (value : bytes)
  : Bucket * option error :=
  if Z.of_nat (String.length key) =? 0 then (bucket, Some ErrKeyRequired)
  else if MaxKeySize <? Z.of_nat (String.length key)
       then (bucket, Some ErrKeyTooLarge)
       else (<[key := value]> bucket, None).

(** The error of [Put] for a key it refuses. *)
Definition key_error (key : string) : error :=
  if Z.of_nat (String.length key) =? 0 then ErrKeyRequired else ErrKeyTooLarge.

(** [bucket.Delete]: the bucket without [key]; a missing key is no error. *)
Definition bucket_Delete (bucket : Bucket) (key : string)
  : Bucket * option error :=
  (delete key bucket, None).

(** The records of a bucket in the order in which a cursor visits them. *)
Definition Cursor (b : Bucket) : list (string * bytes) :=
  merge_sort key_le (map_to_list (`b)).

(** [db.Update]: the function runs on the bucket; its writes are kept when
    it returns [nil] and dropped when it returns an error. *)
Definition db_Update (fn : Bucket -> Bucket * option error) (db : Bucket)
  : Bucket * option error :=
  match fn db with
  | (bucket, None) => (bucket, None)
  | (_, Some err) => (db, Some err)
  end.

(** [db.View]: a read-only transaction. *)
Definition db_View {A : Type} (fn : Bucket -> A) (db : Bucket) : A := fn db.

(** ** package boltdb: the storage *)

Section Storage.

Context `{Gob}.

(** [getItem]; [now] is read by [IsAlive]. *)
Definition getItem (now : Time) (bucket : Bucket) (key : string) : result Item :=
  match bucket_Get bucket key with
  | None => Err KeyNotExistsError
  | Some data =>
      match Decode data with
      | Err err => Err err
      | Ok item =>
          if IsAlive now item then Ok item else Err KeyNotExistsError
      end
  end.

(** [saveItem]: the bucket after the call and the error returned. *)
Definition saveItem (bucket : Bucket) (key : string) (item : Item)
  : Bucket * option error :=
  match Encode item with
  | Err err => (bucket, Some err)
  | Ok buf => bucket_Put bucket key buf
  end.

Definition getHash (now : Time) (bucket : Bucket) (key : string) : result Hash :=
  match getItem now bucket key with
  | Err err => Err err
  | Ok item => CastHash item
  end.

(** The loop of [Keys]: [keys] is the slice captured by the closure;
    [clock key] is the instant at which the record of [key] is checked. *)
Fixpoint keysLoop (clock : string -> Time) (records : list (string * bytes))
    (keys : list string) : list string * option error :=
  match records with
  | [] => (keys, None)
  | (key, value) :: rest =>
      match Decode value with
      | Err err => (keys, Some err)
      | Ok item =>
          keysLoop clock rest
            (if IsAlive (clock key) item then keys ++ [key] else keys)
      end
  end.

Definition sort_Strings (l : list string) : list string :=
  merge_sort str_le l.

(** [Keys]: the error of the transaction is dropped, the keys collected
    before it are kept. *)
Definition Keys (clock : string -> Time) (db : Bucket) : list string :=
  sort_Strings (db_View (fun bucket => keysLoop clock (Cursor bucket) []) db).1.

(** [Expire]; [now] is read by the liveness check, [now'] by [SetTTL]. *)
Definition Expire (now now' : Time) (key : string) (ttl : Z)
  : Bucket -> Bucket * option error :=
  db_Update (fun bucket =>
    match getItem now bucket key with
    | Err err => (bucket, Some err)
    | Ok item => saveItem bucket key (SetTTL now' ttl item)
    end).

Definition Get (now : Time) (key : string) : Bucket -> result string :=
  db_View (fun bucket =>
    match getItem now bucket key with
    | Err err => Err err
    | Ok item => CastString item
    end).

(** [Set], renamed because [Set] is a keyword of Rocq; [now] is read by the
    liveness check, [now'] by [NewItem]. *)
Definition Set_ (now now' : Time) (key value : string) (ttl : Z)
  : Bucket -> Bucket * option error :=
  db_Update (fun bucket =>
    match getItem now bucket key with
    | Ok _ => (bucket, Some KeyAlreadyExistsError)
    | Err _ => saveItem bucket key (NewItem now' (StringValue value) ttl)
    end).

Definition Update (now : Time) (key value : string)
  : Bucket -> Bucket * option error :=
  db_Update (fun bucket =>
    match getItem now bucket key with
    | Err err => (bucket, Some err)
    | Ok item =>
        saveItem bucket key
          {| Value := StringValue value; ExpireTime := ExpireTime item |}
    end).

Definition Delete (now : Time) (key : string)
  : Bucket -> Bucket * option error :=
  db_Update (fun bucket =>
    match getItem now bucket key with
    | Err err => (bucket, Some err)
    | Ok _ => bucket_Delete bucket key
    end).

Definition HashCreate (now now' : Time) (key : string) (ttl : Z)
  : Bucket -> Bucket * option error :=
  db_Update (fun bucket =>
    match getItem now bucket key with
    | Ok _ => (bucket, Some KeyAlreadyExistsError)
    | Err _ => saveItem bucket key (NewItem now' (HashValue ∅) ttl)
    end).

Definition HashGet (now : Time) (key field : string) : Bucket -> result string :=
  db_View (fun bucket =>
    match getHash now bucket key with
    | Err err => Err err
    | Ok hash => GetValue hash field
    end).

Definition HashGetAll (now : Time) (key : string) : Bucket -> result Hash :=
  db_View (fun bucket => getHash now bucket key).

(** [HashSet]: any error of [getItem] is replaced by a new hash with
    ttl 0, for which [getExpireTime] does not read the clock; the
    assignment [hash[field] = value] writes the map that the item holds. *)
Definition HashSet (now : Time) (key field value : string)
  : Bucket -> Bucket * option error :=
  db_Update (fun bucket =>
    let item :=
      match getItem now bucket key with
      | Err _ => NewItem now (HashValue ∅) 0
      | Ok item => item
      end in
    match CastHash item with
    | Err err => (bucket, Some err)
    | Ok hash =>
        saveItem bucket key
          {| Value := HashValue (<[field := value]> hash);
             ExpireTime := ExpireTime item |}
    end).

Definition HashDelete (now : Time) (key field : string)
  : Bucket -> Bucket * option error :=
  db_Update (fun bucket =>
    match getItem now bucket key with
    | Err err => (bucket, Some err)
    | Ok item =>
        match CastHash item with
        | Err err => (bucket, Some err)
        | Ok hash =>
            match GetValue hash field with
            | Err err => (bucket, Some err)
            | Ok _ =>
                saveItem bucket key
                  {| Value := HashValue (delete field hash);
                     ExpireTime := ExpireTime item |}
            end
        end
    end).

Definition HashLen (now : Time) (key : string) : Bucket -> result Z :=
  db_View (fun bucket =>
    match getHash now bucket key with
    | Err err => Err err
    | Ok hash => Ok (Z.of_nat (size hash))
    end).

Definition HashKeys (now : Time) (key : string) : Bucket -> result (list string) :=
  db_View (fun bucket =>
    match getHash now bucket key with
    | Err err => Err err
    | Ok hash => Ok (sort_Strings (map_to_list hash).*1)
    end).

(** The list operations never open a transaction. *)
Definition ListCreate (key : string) (ttl : Z) (db : Bucket)
  : Bucket * option error := (db, Some notSupportedError).

Definition ListLeftPop (key : string) (db : Bucket)
  : Bucket * result string := (db, Err notSupportedError).

Definition ListRightPop (key : string) (db : Bucket)
  : Bucket * result string := (db, Err notSupportedError).

Definition ListLeftPush (key value : string) (db : Bucket)
  : Bucket * option error := (db, Some notSupportedError).

Definition ListRightPush (key value : string) (db : Bucket)
  : Bucket * option error := (db, Some notSupportedError).

Definition ListLen (key : string) (db : Bucket)
  : Bucket * result Z := (db, Err notSupportedError).

Definition ListRange (key : string) (start stop : Z) (db : Bucket)
  : Bucket * result (list string) := (db, Err notSupportedError).

(** *** The sweep *)

(** The read pass of one cycle of [gc]: [deleteKeys] is the slice that
    the closure appends to; [clock key] is the instant at which the
    record of [key] is checked. *)
Fixpoint gcScan (clock : string -> Time) (records : list (string * bytes))
    (deleteKeys : list string) : list string * option error :=
  match records with
  | [] => (deleteKeys, None)
  | (key, value) :: rest =>
      match Decode value with
      | Err err => (deleteKeys, Some err)
      | Ok item =>
          gcScan clock rest
            (if IsAlive (clock key) item then deleteKeys else deleteKeys ++ [key])
      end
  end.

(** The write pass: one transaction that deletes the collected keys. *)
Definition gcDelete (deleteKeys : list string) : Bucket -> Bucket * option error :=
  db_Update (fun bucket =>
    (foldl (fun b key => (bucket_Delete b key).1) bucket deleteKeys, None)).

(** One tick of [gc]. The write pass runs on the bucket as it is when the
    pass starts, [db'], which other operations may have changed since the
    read pass on [db]. *)
Definition gcCycle (clock : string -> Time) (db db' : Bucket) : Bucket :=
  match db_View (fun bucket => gcScan clock (Cursor bucket) []) db with
  | (deleteKeys, None) =>
      if 0 <? Z.of_nat (length deleteKeys)
      then (gcDelete deleteKeys db').1
      else db'
  | (_, Some _) => db'
  end.

End Storage.

(** ** The storage seen from outside *)

(** What a key is, for a reader at instant [now]: its record is missing,
    does not decode, or decodes to an item that is dead or alive. *)
Inductive KeyState : Type :=
| Absent
| Undecodable
| Dead (i : Item)
| Alive (i : Item).

(** The operations of the contract ([storage.Storage]) with their
    arguments and the clock readings they take. *)
Inductive Op : Type :=
| OpKeys (clock : string -> Time)
| OpExpire (now now' : Time) (key : string) (ttl : Z)
| OpGet (now : Time) (key : string)
| OpSet (now now' : Time) (key value : string) (ttl : Z)
| OpUpdate (now : Time) (key value : string)
| OpDelete (now : Time) (key : string)
| OpHashCreate (now now' : Time) (key : string) (ttl : Z)
| OpHashGet (now : Time) (key field : string)
| OpHashGetAll (now : Time) (key : string)
| OpHashSet (now : Time) (key field value : string)
| OpHashDelete (now : Time) (key field : string)
| OpHashLen (now : Time) (key : string)
| OpHashKeys (now : Time) (key : string)
| OpListCreate (key : string) (ttl : Z)
| OpListLeftPop (key : string)
| OpListRightPop (key : string)
| OpListLeftPush (key value : string)
| OpListRightPush (key value : string)
| OpListLen (key : string)
| OpListRange (key : string) (start stop : Z).

(** What an operation hands back beside its error. *)
Inductive Reply : Type :=
| RNil
| RString (s : string)
| RStrings (l : list string)
| RHash (h : Hash)
| RInt (n : Z).

(** The activity on a store: calls of the contract and the two passes of
    the sweep, which other calls may separate. *)
Inductive Step : Type :=
| Call (op : Op)
| SweepScan (clock : string -> Time)
| SweepDelete.

Section Contract.

Context `{Gob}.

(** The item that the record of [key] decodes to, if any. *)
Definition readItem (bucket : Bucket) (key : string) : option Item :=
  match bucket !! key with
  | Some data => gobDecode data
  | None => None
  end.

Definition keyState (now : Time) (bucket : Bucket) (key : string) : KeyState :=
  match bucket !! key with
  | None => Absent
  | Some data =>
      match gobDecode data with
      | None => Undecodable
      | Some item => if IsAlive now item then Alive item else Dead item
      end
  end.

(** The error of [getItem] on a key in state [st]. *)
Definition getItem_error (st : KeyState) : option error :=
  match st with
  | Absent | Dead _ => Some KeyNotExistsError
  | Undecodable => Some gobError
  | Alive _ => None
  end.

(** Absent or dead: the states the contract calls "absent/dead". *)
Definition gone (st : KeyState) : bool :=
  match st with
  | Absent | Dead _ => true
  | Undecodable | Alive _ => false
  end.

Definition reply_err (r : Bucket * option error) : Bucket * result Reply :=
  (r.1, match r.2 with Some err => Err err | None => Ok RNil end).

Definition reply_with {A : Type} (f : A -> Reply) (r : result A) : result Reply :=
  match r with
  | Ok a => Ok (f a)
  | Err err => Err err
  end.

Definition exec (op : Op) (db : Bucket) : Bucket * result Reply :=
  match op with
  | OpKeys clock => (db, Ok (RStrings (Keys clock db)))
  | OpExpire now now' key ttl => reply_err (Expire now now' key ttl db)
  | OpGet now key => (db, reply_with RString (Get now key db))
  | OpSet now now' key value ttl => reply_err (Set_ now now' key value ttl db)
  | OpUpdate now key value => reply_err (Update now key value db)
  | OpDelete now key => reply_err (Delete now key db)
  | OpHashCreate now now' key ttl => reply_err (HashCreate now now' key ttl db)
  | OpHashGet now key field => (db, reply_with RString (HashGet now key field db))
  | OpHashGetAll now key => (db, reply_with RHash (HashGetAll now key db))
  | OpHashSet now key field value => reply_err (HashSet now key field value db)
  | OpHashDelete now key field => reply_err (HashDelete now key field db)
  | OpHashLen now key => (db, reply_with RInt (HashLen now key db))
  | OpHashKeys now key => (db, reply_with RStrings (HashKeys now key db))
  | OpListCreate key ttl => reply_err (ListCreate key ttl db)
  | OpListLeftPop key =>
      let r := ListLeftPop key db in (r.1, reply_with RString r.2)
  | OpListRightPop key =>
      let r := ListRightPop key db in (r.1, reply_with RString r.2)
  | OpListLeftPush key value => reply_err (ListLeftPush key value db)
  | OpListRightPush key value => reply_err (ListRightPush key value db)
  | OpListLen key =>
      let r := ListLen key db in (r.1, reply_with RInt r.2)
  | OpListRange key start stop =>
      let r := ListRange key start stop db in (r.1, reply_with RStrings r.2)
  end.

(** The key an operation addresses and the instant of its liveness
    check; [Keys] addresses none, the list operations check nothing. *)
Definition op_key (op : Op) : option string :=
  match op with
  | OpKeys _ => None
  | OpExpire _ _ key _ | OpGet _ key | OpSet _ _ key _ _ | OpUpdate _ key _
  | OpDelete _ key | OpHashCreate _ _ key _ | OpHashGet _ key _
  | OpHashGetAll _ key | OpHashSet _ key _ _ | OpHashDelete _ key _
  | OpHashLen _ key | OpHashKeys _ key | OpListCreate key _
  | OpListLeftPop key | OpListRightPop key | OpListLeftPush key _
  | OpListRightPush key _ | OpListLen key | OpListRange key _ _ => Some key
  end.

Definition op_now (op : Op) : option Time :=
  match op with
  | OpExpire now _ _ _ | OpGet now _ | OpSet now _ _ _ _ | OpUpdate now _ _
  | OpDelete now _ | OpHashCreate now _ _ _ | OpHashGet now _ _
  | OpHashGetAll now _ | OpHashSet now _ _ _ | OpHashDelete now _ _
  | OpHashLen now _ | OpHashKeys now _ => Some now
  | _ => None
  end.

(** The state of the key of [op] at the instant [op] checks it. *)
Definition op_keyState (op : Op) (db : Bucket) : option KeyState :=
  match op_key op, op_now op with
  | Some key, Some now => Some (keyState now db key)
  | _, _ => None
  end.

(** The operations that cast the item they read to the type they work
    on, and so can answer with a type error. *)
Definition typed (op : Op) : bool :=
  match op with
  | OpGet _ _ | OpHashGet _ _ _ | OpHashGetAll _ _ | OpHashSet _ _ _ _
  | OpHashDelete _ _ _ | OpHashLen _ _ | OpHashKeys _ _ => true
  | _ => false
  end.

Definition is_HashSet (op : Op) : bool :=
  match op with OpHashSet _ _ _ _ => true | _ => false end.


(** The record [kv] decodes to an item that is dead at [clock kv.1]. *)
Definition deadAt (clock : string -> Time) (kv : string * bytes) : bool :=
  match gobDecode kv.2 with
  | Some item => negb (IsAlive (clock kv.1) item)
  | None => false
  end.

(** The read pass of a cycle together with the test
    [err == nil && len(deleteKeys) > 0] that guards the write pass. *)
Definition gcCollect (clock : string -> Time) (db : Bucket) : option (list string) :=
  match db_View (fun bucket => gcScan clock (Cursor bucket) []) db with
  | (deleteKeys, None) =>
      if 0 <? Z.of_nat (length deleteKeys) then Some deleteKeys else None
  | (_, Some _) => None
  end.

(** A store with its sweeper: the bucket and the keys a read pass has
    collected for the write pass that follows it. *)
Definition step (s : Step) (st : Bucket * option (list string))
  : Bucket * option (list string) :=
  match s with
  | Call op => ((exec op st.1).1, st.2)
  | SweepScan clock => (st.1, gcCollect clock st.1)
  | SweepDelete =>
      match st.2 with
      | Some deleteKeys => ((gcDelete deleteKeys st.1).1, None)
      | None => (st.1, None)
      end
  end.

Definition run (steps : list Step) (st : Bucket * option (list string))
  : Bucket * option (list string) :=
  foldl (fun st s => step s st) st steps.



(** The item [item] is not of the type whose cast fails with [err]. *)
Definition mismatch (err : error) (item : Item) : Prop :=
  match err with
  | KeyStringTypeError => forall s, Value item <> StringValue s
  | KeyHashTypeError => forall hash, Value item <> HashValue hash
  | _ => False
  end.

(** The errors of the casts. *)
Definition type_error (err : error) : bool :=
  match err with
  | KeyStringTypeError | KeyHashTypeError | KeyListTypeError => true
  | _ => false
  end.

End Contract.

(** ** Well-formed stores *)

Section Wellformed.

Context `{Gob}.

(** Every record of the bucket decodes. *)
Definition decodable (bucket : Bucket) : Prop :=
  forall key data, bucket !! key = Some data -> is_Some (gobDecode data).

End Wellformed.

(** ** package regexp, as far as the client uses it

    The two patterns of the client are built from the beginning and the
    end of the text, literal characters, a greedy [*] or [+] over a class
    of single characters, and capture groups. A match is the first one a
    backtracking search finds, from the leftmost start (Go's
    leftmost-first rule). Texts are read byte by byte: the characters the
    patterns name, the quote, the colon, the newline and the word
    characters, are single bytes that no other character of a text
    contains, so reading bytes or runes gives the same groups. *)

Module regexp.

Inductive Regexp : Type :=
| Bol                                  (* ^ without the m flag *)
| Eol                                  (* $ without the m flag *)
| Lit (c : Ascii.ascii)
| Star (cls : Ascii.ascii -> bool)     (* x*, greedy *)
| Plus (cls : Ascii.ascii -> bool)     (* x+, greedy *)
| Cat (r1 r2 : Regexp)
| Group (n : nat) (r : Regexp).        (* the n-th pair of parentheses *)

(** [.] without the s flag: every character but the newline. *)
Definition dot (c : Ascii.ascii) : bool := negb (Ascii.eqb c "010"%char).

(** [[a-zA-Z0-9_]]. *)
Definition word (c : Ascii.ascii) : bool :=
  let n := Ascii.nat_of_ascii c in
  ((97 <=? n) && (n <=? 122) || (65 <=? n) && (n <=? 90)
   || (48 <=? n) && (n <=? 57) || (n =? 95))%nat.

Definition Caps := list (nat * string).

(** The text between the start of [s] and the start of its suffix [rest]. *)
Definition consumed (s rest : string) : string :=
  String.substring 0 (String.length s - String.length rest) s.

(** The greedy loop of [x*]: take one more character of the class if the
    rest of the pattern then matches, else stop here. *)
Fixpoint star {R : Type} (cls : Ascii.ascii -> bool) (k : string -> option R)
    (s : string) : option R :=
  match s with
  | String c s' =>
      if cls c
      then match star cls k s' with
           | Some r => Some r
           | None => k s
           end
      else k s
  | EmptyString => k s
  end.

(** [matchAt text r s caps k]: match [r] at the suffix [s] of [text], then
    go on with [k] on what is left. *)
Fixpoint matchAt (text : string) (r : Regexp) (s : string) (caps : Caps)
    (k : string -> Caps -> option (Caps * string)) : option (Caps * string) :=
  match r with
  | Bol => if (String.length s =? String.length text)%nat then k s caps else None
  | Eol => match s with EmptyString => k s caps | String _ _ => None end
  | Lit c =>
      match s with
      | String c' s' => if Ascii.eqb c c' then k s' caps else None
      | EmptyString => None
      end
  | Star cls => star cls (fun rest => k rest caps) s
  | Plus cls =>
      match s with
      | String c s' => if cls c then star cls (fun rest => k rest caps) s' else None
      | EmptyString => None
      end
  | Cat r1 r2 =>
      matchAt text r1 s caps (fun rest caps' => matchAt text r2 rest caps' k)
  | Group n r =>
      matchAt text r s caps (fun rest caps' => k rest ((n, consumed s rest) :: caps'))
  end.

(** The leftmost start at which the pattern matches. *)
Fixpoint search (text : string) (r : Regexp) (s : string)
  : option (string * Caps * string) :=
  match matchAt text r s [] (fun rest caps => Some (caps, rest)) with
  | Some (caps, rest) => Some (s, caps, rest)
  | None =>
      match s with
      | String _ s' => search text r s'
      | EmptyString => None
      end
  end.

Fixpoint NumSubexp (r : Regexp) : nat :=
  match r with
  | Cat r1 r2 => NumSubexp r1 + NumSubexp r2
  | Group _ r => S (NumSubexp r)
  | _ => 0
  end.

Fixpoint capture (n : nat) (caps : Caps) : string :=
  match caps with
  | [] => EmptyString
  | (m, text) :: caps' => if (n =? m)%nat then text else capture n caps'
  end.

(** [FindStringSubmatch]: the match and its groups, [[]] for [nil]. *)
Definition FindStringSubmatch (r : Regexp) (text : string) : list string :=
  match search text r text with
  | Some (start, caps, rest) =>
      consumed start rest :: map (fun n => capture n caps) (seq 1 (NumSubexp r))
  | None => []
  end.

End regexp.

(** ** package client: parse.go *)

Module client.

(** The quote and the colon of the two patterns. *)
Definition quote : Ascii.ascii := "034"%char.
Definition colon : Ascii.ascii := ":"%char.

(** The pattern of [valueRegexp]: the beginning of the text, a quote,
    group 1 with a greedy run of any characters, a quote, the end of the
    text. *)
Definition valueRegexp : regexp.Regexp :=
  regexp.Cat regexp.Bol
    (regexp.Cat (regexp.Lit quote)
       (regexp.Cat (regexp.Group 1 (regexp.Star regexp.dot))
          (regexp.Cat (regexp.Lit quote) regexp.Eol))).

(** The pattern of [hashFieldRegexp]: the beginning of the text, group 1
    with a greedy run of one or more word characters, a colon, a quote,
    group 2 with a greedy run of any characters, a quote, the end of the
    text. *)
Definition hashFieldRegexp : regexp.Regexp :=
  regexp.Cat regexp.Bol
    (regexp.Cat (regexp.Group 1 (regexp.Plus regexp.word))
       (regexp.Cat (regexp.Lit colon)
          (regexp.Cat (regexp.Lit quote)
             (regexp.Cat (regexp.Group 2 (regexp.Star regexp.dot))
                (regexp.Cat (regexp.Lit quote) regexp.Eol))))).

(** The value a parser returns, or the message of the error it builds
    with [fmt.Errorf]. *)
Inductive parsed (A : Type) : Type :=
| Parsed (a : A)
| Invalid (message : string).
Arguments Parsed {A} a.
Arguments Invalid {A} message.

Definition parseValue (str : string) : parsed string :=
  let matches := regexp.FindStringSubmatch valueRegexp str in
  if (1 <? length matches)%nat
  then Parsed (nth 1 matches EmptyString)
  else Invalid ("Invalid value format: " +:+ str).

Definition parseHashField (str : string) : parsed (string * string) :=
  let matches := regexp.FindStringSubmatch hashFieldRegexp str in
  if (2 <? length matches)%nat
  then Parsed (nth 1 matches EmptyString, nth 2 matches EmptyString)
  else Invalid ("Invalid hash field format: " +:+ str).

(** [str] between two quotes. *)
Definition quoted (str : string) : string :=
  String quote (str +:+ String quote EmptyString).

(** No character of [str] is a newline. *)
Definition oneLine (str : string) : bool :=
  forallb regexp.dot (list_ascii_of_string str).

(** [str] is a word of the class [[a-zA-Z0-9_]], not empty. *)
Definition isWord (str : string) : bool :=
  match str with
  | EmptyString => false
  | String _ _ => forallb regexp.word (list_ascii_of_string str)
  end.

End client.

(** ** A byte codec that satisfies the [Gob] contract

    Not gob's wire format: a self-delimiting encoding that shows the
    contract to be satisfiable and gives the examples below something to
    run on. Numbers are written bit by bit; strings and hashes carry their
    length in front. Lists are refused, as an unregistered type is. *)

Module RefCodec.

Fixpoint put_pos (p : positive) : bytes :=
  match p with
  | xH => [x02]
  | xO q => x00 :: put_pos q
  | xI q => x01 :: put_pos q
  end.

Fixpoint get_pos (bs : bytes) : option (positive * bytes) :=
  match bs with
  | x02 :: r => Some (xH, r)
  | x00 :: r => match get_pos r with Some (q, r') => Some (xO q, r') | None => None end
  | x01 :: r => match get_pos r with Some (q, r') => Some (xI q, r') | None => None end
  | _ => None
  end.

Definition put_Z (z : Z) : bytes :=
  match z with
  | Z0 => [x00]
  | Zpos p => x01 :: put_pos p
  | Zneg p => x02 :: put_pos p
  end.

Definition get_Z (bs : bytes) : option (Z * bytes) :=
  match bs with
  | x00 :: r => Some (Z0, r)
  | x01 :: r => match get_pos r with Some (p, r') => Some (Zpos p, r') | None => None end
  | x02 :: r => match get_pos r with Some (p, r') => Some (Zneg p, r') | None => None end
  | _ => None
  end.

Definition put_nat (n : nat) : bytes := put_pos (Pos.of_succ_nat n).

Definition get_nat (bs : bytes) : option (nat * bytes) :=
  match get_pos bs with
  | Some (p, r) => Some (Nat.pred (Pos.to_nat p), r)
  | None => None
  end.

Definition put_string (s : string) : bytes :=
  let bs := list_byte_of_string s in put_nat (length bs) ++ bs.

Definition get_string (bs : bytes) : option (string * bytes) :=
  match get_nat bs with
  | Some (n, r) =>
      if (n <=? length r)%nat
      then Some (string_of_list_byte (take n r), drop n r)
      else None
  | None => None
  end.

Definition put_field (kv : string * string) : bytes :=
  put_string kv.1 ++ put_string kv.2.

Fixpoint put_fields (l : list (string * string)) : bytes :=
  match l with
  | [] => []
  | kv :: l' => put_field kv ++ put_fields l'
  end.

Fixpoint get_fields (n : nat) (bs : bytes) : option (list (string * string) * bytes) :=
  match n with
  | O => Some ([], bs)
  | S n' =>
      match get_string bs with
      | Some (k, r) =>
          match get_string r with
          | Some (v, r') =>
              match get_fields n' r' with
              | Some (l, r'') => Some ((k, v) :: l, r'')
              | None => None
              end
          | None => None
          end
      | None => None
      end
  end.

Definition put_value (v : AnyValue) : option bytes :=
  match v with
  | StringValue s => Some (x00 :: put_string s)
  | HashValue h =>
      let l := map_to_list h in
      Some (x01 :: put_nat (length l) ++ put_fields l)
  | ListValue _ => None
  end.

Definition get_value (bs : bytes) : option (AnyValue * bytes) :=
  match bs with
  | x00 :: r =>
      match get_string r with
      | Some (s, r') => Some (StringValue s, r')
      | None => None
      end
  | x01 :: r =>
      match get_nat r with
      | Some (n, r') =>
          match get_fields n r' with
          | Some (l, r'') => Some (HashValue (list_to_map l), r'')
          | None => None
          end
      | None => None
      end
  | _ => None
  end.

Definition encode (i : Item) : option bytes :=
  match put_value (Value i) with
  | Some bs => Some (bs ++ put_Z (ExpireTime i))
  | None => None
  end.

Definition decode (bs : bytes) : option Item :=
  match get_value bs with
  | Some (v, r) =>
      match get_Z r with
      | Some (t, []) => Some {| Value := v; ExpireTime := t |}
      | _ => None
      end
  | None => None
  end.

Lemma get_put_pos p r : get_pos (put_pos p ++ r) = Some (p, r).
Proof. induction p as [q IH | q IH |]; simpl; rewrite ?IH; reflexivity. Qed.

Lemma get_put_Z z r : get_Z (put_Z z ++ r) = Some (z, r).
Proof. destruct z; simpl; rewrite ?get_put_pos; reflexivity. Qed.

Lemma get_put_nat n r : get_nat (put_nat n ++ r) = Some (n, r).
Proof.
  unfold get_nat, put_nat. rewrite get_put_pos, SuccNat2Pos.id_succ. reflexivity.
Qed.

Lemma get_put_string s r : get_string (put_string s ++ r) = Some (s, r).
Proof.
  unfold get_string, put_string. rewrite <- app_assoc, get_put_nat.
  rewrite length_app.
  destruct (Nat.leb_spec (length (list_byte_of_string s))
              (length (list_byte_of_string s) + length r)) as [_ | Hlt]; [| lia].
  rewrite take_app_length, drop_app_length, string_of_list_byte_of_string.
  reflexivity.
Qed.

Lemma get_put_fields l r : get_fields (length l) (put_fields l ++ r) = Some (l, r).
Proof.
  induction l as [| [k v] l IH]; simpl; [reflexivity |].
  unfold put_field; simpl.
  rewrite <- !app_assoc, get_put_string, get_put_string, IH. reflexivity.
Qed.

Lemma get_put_value v bs r : put_value v = Some bs -> get_value (bs ++ r) = Some (v, r).
Proof.
  destruct v as [s | h | l]; simpl; intros Hput; inversion Hput; subst; simpl.
  - rewrite get_put_string. reflexivity.
  - rewrite <- app_assoc, get_put_nat, get_put_fields, list_to_map_to_list.
    reflexivity.
Qed.

Lemma decode_encode i bs : encode i = Some bs -> decode bs = Some i.
Proof.
  unfold encode, decode. destruct (put_value (Value i)) as [vb |] eqn:Hv; [| discriminate].
  intros Henc; inversion Henc; subst.
  rewrite (get_put_value _ _ _ Hv).
  rewrite <- (app_nil_r (put_Z (ExpireTime i))), get_put_Z.
  destruct i; reflexivity.
Qed.

Lemma encode_registered i : registered (Value i) = true -> is_Some (encode i).
Proof.
  unfold encode. destruct (Value i); simpl; intros Hreg; try discriminate; eauto.
Qed.

Lemma get_value_registered bs v r : get_value bs = Some (v, r) -> registered v = true.
Proof.
  destruct bs as [| b bs]; [discriminate |].
  destruct b; try discriminate; simpl.
  - destruct (get_string bs) as [[s r'] |]; [| discriminate].
    intros [= <- _]. reflexivity.
  - destruct (get_nat bs) as [[n r'] |]; [| discriminate].
    destruct (get_fields n r') as [[l r''] |]; [| discriminate].
    intros [= <- _]. reflexivity.
Qed.

Lemma decode_registered bs i : decode bs = Some i -> registered (Value i) = true.
Proof.
  unfold decode. destruct (get_value bs) as [[v r] |] eqn:Hv; [| discriminate].
  destruct (get_Z r) as [[t [| b r']] |]; try discriminate.
  intros [= <-]. exact (get_value_registered _ _ _ Hv).
Qed.

Definition gob : Gob :=
  {| gobEncode := encode;
     gobDecode := decode;
     gobEncode_registered := encode_registered;
     gobDecode_Encode := decode_encode;
     gobDecode_registered := decode_registered |}.

End RefCodec.

(** ** Sample stores, on the codec above *)

Module Sample.

(** An instant of the year 2025, in nanoseconds since the zero instant,
    and the instant two seconds later. *)
Definition now : Time := 63900000000000000000.
Definition later : Time := now + 2000000000.

(** ["k"] holds the string ["v"] with a ttl of one second from [now]. *)
Definition oneSecond : Bucket := (@Set_ RefCodec.gob now now "k" "v" 1 ∅).1.

(** ["k"] holds the string ["v"] for good. *)
Definition permanent : Bucket := (@Set_ RefCodec.gob now now "k" "v" 0 ∅).1.

(** ["h"] holds the hash with the single field ["f"], set to ["x"]. *)
Definition hashed : Bucket := (@HashSet RefCodec.gob now "h" "f" "x" ∅).1.

(** [oneSecond] with one more record, which does not decode. *)
Definition damaged : Bucket := <["z" := [x2a]]> oneSecond.

(** The key of [n] bytes, all of them the letter a. *)
Definition keyOf (n : Z) : string :=
  string_of_list_ascii (repeat "a"%char (Z.to_nat n)).

End Sample.

(** * Properties *)

(** ** Arithmetic of expiration instants *)

Lemma int64_small z : - 2 ^ 63 <= z < 2 ^ 63 -> int64 z = z.
Proof.
  intros Hz. unfold int64.
  rewrite Z.mod_small by lia. lia.
Qed.

Lemma seconds_small ttl :
  0 <= ttl <= MaxSeconds ->
  time.mul (time.ToDuration ttl) time.Second = ttl * 1000000000.
Proof.
  intros Httl. unfold time.mul, time.ToDuration, time.Second, MaxSeconds in *.
  rewrite (int64_small ttl) by lia.
  apply int64_small. lia.
Qed.

Lemma getExpireTime_zero now : getExpireTime now 0 = 0.
Proof. reflexivity. Qed.

Lemma getExpireTime_small now ttl :
  0 < ttl <= MaxSeconds -> getExpireTime now ttl = now + ttl * 1000000000.
Proof.
  intros Httl. unfold getExpireTime, time.Add.
  destruct (Z.ltb_spec 0 ttl) as [_ | Hle]; [| lia].
  rewrite seconds_small by lia. reflexivity.
Qed.

(** One second past [MaxSeconds] the product wraps to a negative
    duration: the instant lies some 292 years before [now]. *)
Lemma seconds_wrap :
  time.mul (time.ToDuration (MaxSeconds + 1)) time.Second
  = - 9223372036709551616.
Proof. vm_compute. reflexivity. Qed.

Lemma getExpireTime_wraps now :
  getExpireTime now (MaxSeconds + 1) = now - 9223372036709551616.
Proof.
  unfold getExpireTime, time.Add. rewrite seconds_wrap.
  change (0 <? MaxSeconds + 1) with true. cbv iota. lia.
Qed.

Lemma IsAlive_spec now i :
  IsAlive now i = true <-> ExpireTime i = 0 \/ now < ExpireTime i.
Proof.
  unfold IsAlive, time.IsZero, time.After.
  rewrite orb_true_iff, Z.eqb_eq, Z.ltb_lt. reflexivity.
Qed.

Lemma IsAlive_immortal now v : IsAlive now {| Value := v; ExpireTime := 0 |} = true.
Proof. reflexivity. Qed.

(** ** Buckets *)

Lemma key_ok_length key :
  key_ok key = true <-> 0 < Z.of_nat (String.length key) <= 32768.
Proof. unfold key_ok. rewrite andb_true_iff, Z.ltb_lt, Z.leb_le. reflexivity. Qed.

(** A record lies under a key that [Put] takes. *)
Lemma bucket_lookup_ok (bucket : Bucket) key data :
  bucket !! key = Some data -> key_ok key = true.
Proof. intros Hdata. exact (proj2_dsig bucket key data Hdata). Qed.

Lemma bucket_lookup_empty key : (∅ : Bucket) !! key = None.
Proof. apply (lookup_empty (M := gmap string)). Qed.

Lemma bucket_lookup_insert_eq (bucket : Bucket) key data :
  key_ok key = true -> <[key := data]> bucket !! key = Some data.
Proof.
  intros Hkey. unfold insert, bucket_insert.
  destruct (decide (key_ok key = true)) as [Hk | Hk]; [| contradiction].
  apply (lookup_insert_eq (M := gmap string)).
Qed.

Lemma bucket_lookup_insert_ne (bucket : Bucket) key key' data :
  key <> key' -> <[key := data]> bucket !! key' = bucket !! key'.
Proof.
  intros Hne. unfold insert, bucket_insert.
  destruct (decide (key_ok key = true)) as [Hk | Hk]; [| reflexivity].
  apply (lookup_insert_ne (M := gmap string)). exact Hne.
Qed.

Lemma bucket_lookup_delete_eq (bucket : Bucket) key :
  delete key bucket !! key = None.
Proof. apply (lookup_delete_eq (M := gmap string)). Qed.

Lemma bucket_lookup_delete_ne (bucket : Bucket) key key' :
  key <> key' -> delete key bucket !! key' = bucket !! key'.
Proof. apply (lookup_delete_ne (M := gmap string)). Qed.

Lemma bucket_lookup_delete_Some (bucket : Bucket) key key' data :
  delete key bucket !! key' = Some data <-> key <> key' /\ bucket !! key' = Some data.
Proof. apply (lookup_delete_Some (M := gmap string)). Qed.

(** Two buckets with the same records are the same bucket. *)
Lemma bucket_eq (b1 b2 : Bucket) :
  (forall key, b1 !! key = b2 !! key) -> b1 = b2.
Proof. intros Heq. apply dsig_eq. apply map_eq. exact Heq. Qed.

Lemma bucket_elem_of_map_to_list (bucket : Bucket) key data :
  (key, data) ∈ map_to_list (`bucket) <-> bucket !! key = Some data.
Proof. apply elem_of_map_to_list. Qed.

(** [Put] writes under a key it takes, and refuses the others. *)
Lemma bucket_Put_ok (bucket : Bucket) key data :
  key_ok key = true -> bucket_Put bucket key data = (<[key := data]> bucket, None).
Proof.
  intros Hkey. apply key_ok_length in Hkey. unfold bucket_Put, MaxKeySize.
  destruct (Z.eqb_spec (Z.of_nat (String.length key)) 0) as [H0 | _]; [lia |].
  destruct (Z.ltb_spec 32768 (Z.of_nat (String.length key))); [lia | reflexivity].
Qed.

Lemma bucket_Put_refused (bucket : Bucket) key data :
  key_ok key = false ->
  bucket_Put bucket key data = (bucket, Some (key_error key)).
Proof.
  intros Hkey. unfold bucket_Put, key_error, MaxKeySize.
  destruct (Z.eqb_spec (Z.of_nat (String.length key)) 0) as [H0 | H0]; [reflexivity |].
  destruct (Z.ltb_spec 32768 (Z.of_nat (String.length key))) as [Hlt | Hle];
    [reflexivity |].
  exfalso. assert (key_ok key = true) by (apply key_ok_length; lia). congruence.
Qed.

Lemma bucket_Put_snd (bucket : Bucket) key data :
  (bucket_Put bucket key data).2 = if key_ok key then None else Some (key_error key).
Proof.
  destruct (key_ok key) eqn:Hkey.
  - rewrite bucket_Put_ok by exact Hkey. reflexivity.
  - rewrite bucket_Put_refused by exact Hkey. reflexivity.
Qed.

(** [Put] touches no key but its own. *)
Lemma bucket_Put_other (bucket : Bucket) key data key' :
  key <> key' -> (bucket_Put bucket key data).1 !! key' = bucket !! key'.
Proof.
  intros Hne. unfold bucket_Put.
  destruct (Z.of_nat (String.length key) =? 0); [reflexivity |].
  destruct (MaxKeySize <? Z.of_nat (String.length key)); [reflexivity |].
  apply bucket_lookup_insert_ne. exact Hne.
Qed.

Section Facts.

Context `{Gob}.

(** *** Reading and writing records *)

Lemma getItem_keyState now (bucket : Bucket) key :
  getItem now bucket key =
    match keyState now bucket key with
    | Absent | Dead _ => Err KeyNotExistsError
    | Undecodable => Err gobError
    | Alive item => Ok item
    end.
Proof.
  unfold getItem, keyState, Decode, bucket_Get.
  destruct (bucket !! key) as [data |]; [| reflexivity].
  destruct (gobDecode data) as [item |]; [| reflexivity].
  destruct (IsAlive now item); reflexivity.
Qed.

Lemma keyState_Alive now (bucket : Bucket) key item :
  keyState now bucket key = Alive item <->
  readItem bucket key = Some item /\ IsAlive now item = true.
Proof.
  unfold keyState, readItem.
  destruct (bucket !! key) as [data |]; [| split; [discriminate | intros [? _]; discriminate]].
  destruct (gobDecode data) as [i |]; [| split; [discriminate | intros [? _]; discriminate]].
  destruct (IsAlive now i) eqn:Hi; split.
  - intros [= <-]. auto.
  - intros [[= <-] _]. reflexivity.
  - discriminate.
  - intros [[= <-] Ha]. congruence.
Qed.

Lemma keyState_Dead now (bucket : Bucket) key item :
  keyState now bucket key = Dead item <->
  readItem bucket key = Some item /\ IsAlive now item = false.
Proof.
  unfold keyState, readItem.
  destruct (bucket !! key) as [data |]; [| split; [discriminate | intros [? _]; discriminate]].
  destruct (gobDecode data) as [i |]; [| split; [discriminate | intros [? _]; discriminate]].
  destruct (IsAlive now i) eqn:Hi; split.
  - discriminate.
  - intros [[= <-] Ha]. congruence.
  - intros [= <-]. auto.
  - intros [[= <-] _]. reflexivity.
Qed.

Lemma keyState_Alive_registered now (bucket : Bucket) key item :
  keyState now bucket key = Alive item -> registered (Value item) = true.
Proof.
  unfold keyState. destruct (bucket !! key) as [data |]; [| discriminate].
  destruct (gobDecode data) as [i |] eqn:Hdec; [| discriminate].
  destruct (IsAlive now i); [| discriminate].
  intros [= <-]. exact (gobDecode_registered _ _ Hdec).
Qed.

Lemma keyState_Absent now (bucket : Bucket) key :
  keyState now bucket key = Absent <-> bucket !! key = None.
Proof.
  unfold keyState. destruct (bucket !! key) as [data |].
  - destruct (gobDecode data) as [i |]; [destruct (IsAlive now i) |];
      split; discriminate.
  - split; reflexivity.
Qed.

(** The state of a key depends on its record only. *)
Lemma keyState_ext now (b1 b2 : Bucket) key :
  b1 !! key = b2 !! key -> keyState now b1 key = keyState now b2 key.
Proof. unfold keyState. intros ->. reflexivity. Qed.


(** An item of a registered type is written, and what is written
    decodes to it. *)
Lemma keyState_Alive_key_ok now (bucket : Bucket) key item :
  keyState now bucket key = Alive item -> key_ok key = true.
Proof.
  unfold keyState. destruct (bucket !! key) as [data |] eqn:Hdata; [| discriminate].
  intros _. exact (bucket_lookup_ok _ _ _ Hdata).
Qed.

Lemma keyState_Dead_key_ok now (bucket : Bucket) key item :
  keyState now bucket key = Dead item -> key_ok key = true.
Proof.
  unfold keyState. destruct (bucket !! key) as [data |] eqn:Hdata; [| discriminate].
  intros _. exact (bucket_lookup_ok _ _ _ Hdata).
Qed.

(** An item of a registered type is written under a key that [Put]
    takes, and what is written decodes to it. *)
Lemma saveItem_registered (bucket : Bucket) key item :
  key_ok key = true ->
  registered (Value item) = true ->
  exists buf, gobEncode item = Some buf /\ gobDecode buf = Some item /\
              saveItem bucket key item = (<[key := buf]> bucket, None).
Proof.
  intros Hkey Hreg. destruct (gobEncode_registered item Hreg) as [buf Hbuf].
  exists buf. split; [exact Hbuf |]. split; [exact (gobDecode_Encode _ _ Hbuf) |].
  unfold saveItem, Encode. rewrite Hbuf. apply bucket_Put_ok. exact Hkey.
Qed.

(** No record lies under a key that [Put] refuses. *)
Lemma keyState_refused now (bucket : Bucket) key :
  key_ok key = false -> keyState now bucket key = Absent.
Proof.
  intros Hkey. unfold keyState.
  destruct (bucket !! key) as [data |] eqn:Hdata; [| reflexivity].
  apply bucket_lookup_ok in Hdata. congruence.
Qed.

(** Under a key that [Put] refuses an item of a registered type is
    encoded and then not written: [saveItem] forwards the error of [Put]. *)
Lemma saveItem_refused (bucket : Bucket) key item :
  key_ok key = false ->
  registered (Value item) = true ->
  saveItem bucket key item = (bucket, Some (key_error key)).
Proof.
  intros Hkey Hreg. destruct (gobEncode_registered item Hreg) as [buf Hbuf].
  unfold saveItem, Encode. rewrite Hbuf. apply bucket_Put_refused. exact Hkey.
Qed.

(** Whatever [saveItem] returns, a record it wrote decodes to the item
    it was given, and an error means that nothing was written. *)
Lemma saveItem_lossless (bucket : Bucket) key item :
  match (saveItem bucket key item).2 with
  | None => readItem (saveItem bucket key item).1 key = Some item
  | Some _ => (saveItem bucket key item).1 = bucket
  end.
Proof.
  unfold saveItem, Encode.
  destruct (gobEncode item) as [buf |] eqn:Hbuf; [| reflexivity].
  destruct (key_ok key) eqn:Hkey.
  - rewrite bucket_Put_ok by exact Hkey. simpl.
    unfold readItem. rewrite bucket_lookup_insert_eq by exact Hkey.
    exact (gobDecode_Encode _ _ Hbuf).
  - rewrite bucket_Put_refused by exact Hkey. reflexivity.
Qed.

Lemma saveItem_other (bucket : Bucket) key item key' :
  key' <> key -> (saveItem bucket key item).1 !! key' = bucket !! key'.
Proof.
  intros Hne. unfold saveItem.
  destruct (Encode item); simpl; [| reflexivity].
  apply bucket_Put_other. congruence.
Qed.

Lemma db_Update_err fn (db : Bucket) err :
  (db_Update fn db).2 = Some err -> (db_Update fn db).1 = db.
Proof.
  unfold db_Update. destruct (fn db) as [bucket [e |]]; simpl; [reflexivity | discriminate].
Qed.

Lemma db_Update_unfold fn (db : Bucket) :
  db_Update fn db =
    match (fn db).2 with
    | None => ((fn db).1, None)
    | Some err => (db, Some err)
    end.
Proof. unfold db_Update. destruct (fn db) as [bucket [e |]]; reflexivity. Qed.

End Facts.

(** ** The write operations, case by case *)

Section Writes.

Context `{Gob}.

(** Unfolds a write operation down to the state of its key. *)
Ltac open_op :=
  rewrite db_Update_unfold; cbv beta; rewrite getItem_keyState.

Ltac save_registered bucket key item Hkey :=
  let buf := fresh "buf" in
  let Henc := fresh "Henc" in
  let Hdec := fresh "Hdec" in
  let Hsave := fresh "Hsave" in
  destruct (saveItem_registered bucket key item Hkey eq_refl)
    as (buf & Henc & Hdec & Hsave);
  rewrite Hsave; simpl;
  repeat split;
  [ unfold readItem; rewrite bucket_lookup_insert_eq by exact Hkey; exact Hdec
  | intros ? ?; apply bucket_lookup_insert_ne; congruence ].

Lemma Set_alive now now' key value ttl (db : Bucket) item :
  keyState now db key = Alive item ->
  Set_ now now' key value ttl db = (db, Some KeyAlreadyExistsError).
Proof. intros Hst. unfold Set_. open_op. rewrite Hst. reflexivity. Qed.

Lemma Set_fresh now now' key value ttl (db : Bucket) :
  key_ok key = true ->
  (forall item, keyState now db key <> Alive item) ->
  (Set_ now now' key value ttl db).2 = None /\
  readItem (Set_ now now' key value ttl db).1 key
    = Some (NewItem now' (StringValue value) ttl) /\
  (forall key', key' <> key ->
     (Set_ now now' key value ttl db).1 !! key' = db !! key').
Proof.
  intros Hkey Hst. unfold Set_. open_op.
  destruct (keyState now db key) as [| | i | i] eqn:Hk;
    try (exfalso; exact (Hst i eq_refl));
    save_registered db key (NewItem now' (StringValue value) ttl) Hkey.
Qed.

Lemma HashCreate_alive now now' key ttl (db : Bucket) item :
  keyState now db key = Alive item ->
  HashCreate now now' key ttl db = (db, Some KeyAlreadyExistsError).
Proof. intros Hst. unfold HashCreate. open_op. rewrite Hst. reflexivity. Qed.

Lemma HashCreate_fresh now now' key ttl (db : Bucket) :
  key_ok key = true ->
  (forall item, keyState now db key <> Alive item) ->
  (HashCreate now now' key ttl db).2 = None /\
  readItem (HashCreate now now' key ttl db).1 key
    = Some (NewItem now' (HashValue ∅) ttl) /\
  (forall key', key' <> key ->
     (HashCreate now now' key ttl db).1 !! key' = db !! key').
Proof.
  intros Hkey Hst. unfold HashCreate. open_op.
  destruct (keyState now db key) as [| | i | i] eqn:Hk;
    try (exfalso; exact (Hst i eq_refl));
    save_registered db key (NewItem now' (HashValue ∅) ttl) Hkey.
Qed.





(** The three operations that create a key, on a key that [Put] refuses:
    the key is absent, the new item is encoded, [Put] returns its error
    and the transaction is rolled back. *)
Lemma Set_refused now now' key value ttl (db : Bucket) :
  key_ok key = false ->
  Set_ now now' key value ttl db = (db, Some (key_error key)).
Proof.
  intros Hkey. unfold Set_. open_op. rewrite (keyState_refused _ _ _ Hkey).
  rewrite saveItem_refused by (exact Hkey || reflexivity). reflexivity.
Qed.

Lemma HashCreate_refused now now' key ttl (db : Bucket) :
  key_ok key = false ->
  HashCreate now now' key ttl db = (db, Some (key_error key)).
Proof.
  intros Hkey. unfold HashCreate. open_op. rewrite (keyState_refused _ _ _ Hkey).
  rewrite saveItem_refused by (exact Hkey || reflexivity). reflexivity.
Qed.

Lemma HashSet_refused now key field value (db : Bucket) :
  key_ok key = false ->
  HashSet now key field value db = (db, Some (key_error key)).
Proof.
  intros Hkey. unfold HashSet. open_op. rewrite (keyState_refused _ _ _ Hkey).
  change (CastHash (NewItem now (HashValue ∅) 0)) with (Ok (∅ : Hash)).
  cbv iota.
  rewrite saveItem_refused by (exact Hkey || reflexivity). reflexivity.
Qed.

Lemma Update_alive now key value (db : Bucket) item :
  keyState now db key = Alive item ->
  (Update now key value db).2 = None /\
  readItem (Update now key value db).1 key
    = Some {| Value := StringValue value; ExpireTime := ExpireTime item |} /\
  (forall key', key' <> key -> (Update now key value db).1 !! key' = db !! key').
Proof.
  intros Hst. pose proof (keyState_Alive_key_ok _ _ _ _ Hst) as Hkey.
  unfold Update. open_op. rewrite Hst.
  save_registered db key
    {| Value := StringValue value; ExpireTime := ExpireTime item |} Hkey.
Qed.

Lemma Update_not_alive now key value (db : Bucket) :
  (forall item, keyState now db key <> Alive item) ->
  Update now key value db = (db, getItem_error (keyState now db key)).
Proof.
  intros Hst. unfold Update. open_op.
  destruct (keyState now db key) as [| | i | i]; try reflexivity.
  exfalso; exact (Hst i eq_refl).
Qed.

Lemma Expire_alive now now' key ttl (db : Bucket) item :
  keyState now db key = Alive item ->
  (Expire now now' key ttl db).2 = None /\
  readItem (Expire now now' key ttl db).1 key
    = Some {| Value := Value item; ExpireTime := getExpireTime now' ttl |} /\
  (forall key', key' <> key -> (Expire now now' key ttl db).1 !! key' = db !! key').
Proof.
  intros Hst. unfold Expire. open_op. rewrite Hst.
  pose proof (keyState_Alive_registered _ _ _ _ Hst) as Hreg.
  pose proof (keyState_Alive_key_ok _ _ _ _ Hst) as Hkey.
  destruct (saveItem_registered db key (SetTTL now' ttl item) Hkey Hreg)
    as (buf & Henc & Hdec & Hsave).
  rewrite Hsave; simpl. repeat split.
  - unfold readItem. rewrite bucket_lookup_insert_eq by exact Hkey. exact Hdec.
  - intros key' Hne. apply bucket_lookup_insert_ne. congruence.
Qed.

Lemma Expire_not_alive now now' key ttl (db : Bucket) :
  (forall item, keyState now db key <> Alive item) ->
  Expire now now' key ttl db = (db, getItem_error (keyState now db key)).
Proof.
  intros Hst. unfold Expire. open_op.
  destruct (keyState now db key) as [| | i | i]; try reflexivity.
  exfalso; exact (Hst i eq_refl).
Qed.

Lemma Delete_alive now key (db : Bucket) item :
  keyState now db key = Alive item ->
  Delete now key db = (delete key db, None).
Proof. intros Hst. unfold Delete. open_op. rewrite Hst. reflexivity. Qed.

Lemma Delete_not_alive now key (db : Bucket) :
  (forall item, keyState now db key <> Alive item) ->
  Delete now key db = (db, getItem_error (keyState now db key)).
Proof.
  intros Hst. unfold Delete. open_op.
  destruct (keyState now db key) as [| | i | i]; try reflexivity.
  exfalso; exact (Hst i eq_refl).
Qed.

Lemma HashSet_fresh now key field value (db : Bucket) :
  key_ok key = true ->
  (forall item, keyState now db key <> Alive item) ->
  (HashSet now key field value db).2 = None /\
  readItem (HashSet now key field value db).1 key
    = Some {| Value := HashValue {[ field := value ]}; ExpireTime := 0 |} /\
  (forall key', key' <> key ->
     (HashSet now key field value db).1 !! key' = db !! key').
Proof.
  intros Hkey Hst. unfold HashSet. open_op.
  destruct (keyState now db key) as [| | i | i] eqn:Hk;
    try (exfalso; exact (Hst i eq_refl));
    change (CastHash (NewItem now (HashValue ∅) 0)) with (Ok (∅ : Hash));
    cbv iota;
    change (ExpireTime (NewItem now (HashValue ∅) 0)) with 0;
    change (<[field := value]> (∅ : Hash)) with ({[ field := value ]} : Hash);
    save_registered db key
      {| Value := HashValue {[ field := value ]}; ExpireTime := 0 |} Hkey.
Qed.

Lemma HashSet_hash now key field value (db : Bucket) item hash :
  keyState now db key = Alive item ->
  Value item = HashValue hash ->
  (HashSet now key field value db).2 = None /\
  readItem (HashSet now key field value db).1 key
    = Some {| Value := HashValue (<[field := value]> hash);
              ExpireTime := ExpireTime item |} /\
  (forall key', key' <> key ->
     (HashSet now key field value db).1 !! key' = db !! key').
Proof.
  intros Hst Hv. pose proof (keyState_Alive_key_ok _ _ _ _ Hst) as Hkey.
  unfold HashSet. open_op. rewrite Hst.
  unfold CastHash. rewrite Hv.
  save_registered db key
    {| Value := HashValue (<[field := value]> hash);
       ExpireTime := ExpireTime item |} Hkey.
Qed.

Lemma HashSet_mismatch now key field value (db : Bucket) item :
  keyState now db key = Alive item ->
  (forall hash, Value item <> HashValue hash) ->
  HashSet now key field value db = (db, Some KeyHashTypeError).
Proof.
  intros Hst Hv. unfold HashSet. open_op. rewrite Hst.
  unfold CastHash. destruct (Value item) as [s | h | l]; try reflexivity.
  exfalso; exact (Hv h eq_refl).
Qed.

Lemma HashDelete_field now key field (db : Bucket) item hash value :
  keyState now db key = Alive item ->
  Value item = HashValue hash ->
  hash !! field = Some value ->
  (HashDelete now key field db).2 = None /\
  readItem (HashDelete now key field db).1 key
    = Some {| Value := HashValue (delete field hash);
              ExpireTime := ExpireTime item |} /\
  (forall key', key' <> key ->
     (HashDelete now key field db).1 !! key' = db !! key').
Proof.
  intros Hst Hv Hf. pose proof (keyState_Alive_key_ok _ _ _ _ Hst) as Hkey.
  unfold HashDelete. open_op. rewrite Hst.
  unfold CastHash, GetValue. rewrite Hv, Hf.
  save_registered db key
    {| Value := HashValue (delete field hash);
       ExpireTime := ExpireTime item |} Hkey.
Qed.

Lemma HashDelete_no_field now key field (db : Bucket) item hash :
  keyState now db key = Alive item ->
  Value item = HashValue hash ->
  hash !! field = None ->
  HashDelete now key field db = (db, Some FieldNotExistError).
Proof.
  intros Hst Hv Hf. unfold HashDelete. open_op. rewrite Hst.
  unfold CastHash, GetValue. rewrite Hv, Hf. reflexivity.
Qed.

Lemma HashDelete_mismatch now key field (db : Bucket) item :
  keyState now db key = Alive item ->
  (forall hash, Value item <> HashValue hash) ->
  HashDelete now key field db = (db, Some KeyHashTypeError).
Proof.
  intros Hst Hv. unfold HashDelete. open_op. rewrite Hst.
  unfold CastHash. destruct (Value item) as [s | h | l]; try reflexivity.
  exfalso; exact (Hv h eq_refl).
Qed.

Lemma HashDelete_not_alive now key field (db : Bucket) :
  (forall item, keyState now db key <> Alive item) ->
  HashDelete now key field db = (db, getItem_error (keyState now db key)).
Proof.
  intros Hst. unfold HashDelete. open_op.
  destruct (keyState now db key) as [| | i | i]; try reflexivity.
  exfalso; exact (Hst i eq_refl).
Qed.

End Writes.

(** ** Reads, errors and the frame of an operation *)

Section Frame.

Context `{Gob}.

Lemma Get_keyState now key (db : Bucket) :
  Get now key db =
    match keyState now db key with
    | Absent | Dead _ => Err KeyNotExistsError
    | Undecodable => Err gobError
    | Alive item => CastString item
    end.
Proof.
  unfold Get, db_View. rewrite getItem_keyState.
  destruct (keyState now db key); reflexivity.
Qed.

Lemma getHash_keyState now key (db : Bucket) :
  getHash now db key =
    match keyState now db key with
    | Absent | Dead _ => Err KeyNotExistsError
    | Undecodable => Err gobError
    | Alive item => CastHash item
    end.
Proof.
  unfold getHash. rewrite getItem_keyState.
  destruct (keyState now db key); reflexivity.
Qed.

Lemma reply_err_Err r err : (reply_err r).2 = Err err -> r.2 = Some err.
Proof. unfold reply_err; simpl. destruct r.2; intros [=]; congruence. Qed.

(** An operation that returns an error returns the bucket it was given. *)
Lemma exec_err op (db : Bucket) err :
  (exec op db).2 = Err err -> (exec op db).1 = db.
Proof.
  destruct op; simpl; try reflexivity; intros Herr;
    apply reply_err_Err in Herr;
    first [ exact (db_Update_err _ _ _ Herr) | reflexivity ].
Qed.

Lemma db_Update_other fn (db : Bucket) (key' : string) :
  (forall bucket : Bucket, (fn bucket).1 !! key' = bucket !! key') ->
  (db_Update fn db).1 !! key' = db !! key'.
Proof.
  intros Hfn. rewrite db_Update_unfold.
  destruct (fn db).2; simpl; [reflexivity | apply Hfn].
Qed.

(** An operation leaves the record of every key but its own as it is. *)
Lemma exec_other op (db : Bucket) key' :
  op_key op <> Some key' -> (exec op db).1 !! key' = db !! key'.
Proof.
  intros Hkey.
  assert (Hsave : forall (bucket : Bucket) key item,
             Some key <> Some key' ->
             (saveItem bucket key item).1 !! key' = bucket !! key').
  { intros bucket key item Hne. apply saveItem_other. congruence. }
  destruct op; simpl in *; try reflexivity;
    apply db_Update_other; intros bucket;
    repeat match goal with
           | |- context [getItem ?n ?b ?k] => destruct (getItem n b k); simpl
           | |- context [CastHash ?i] => destruct (CastHash i); simpl
           | |- context [GetValue ?h ?f] => destruct (GetValue h f); simpl
           end;
    first [ reflexivity
          | apply Hsave; assumption
          | apply bucket_lookup_delete_ne; congruence ].
Qed.

End Frame.

(** ** The sweep *)

Section Sweep.

Context `{Gob}.

Lemma elem_of_Cursor (bucket : Bucket) key data :
  (key, data) ∈ Cursor bucket <-> bucket !! key = Some data.
Proof.
  unfold Cursor. rewrite merge_sort_Permutation. apply bucket_elem_of_map_to_list.
Qed.

Lemma NoDup_Cursor_keys (bucket : Bucket) : NoDup (Cursor bucket).*1.
Proof.
  unfold Cursor. rewrite merge_sort_Permutation. apply NoDup_fst_map_to_list.
Qed.

Lemma gcScan_decodable clock records deleteKeys :
  Forall (fun kv => is_Some (gobDecode kv.2)) records ->
  gcScan clock records deleteKeys =
    (deleteKeys ++ (filter (fun kv => deadAt clock kv = true) records).*1, None).
Proof.
  intros Hall. revert deleteKeys.
  induction Hall as [| [key value] rest [item Hitem] _ IH]; intros deleteKeys; simpl.
  - rewrite app_nil_r. reflexivity.
  - simpl in Hitem. unfold Decode. rewrite Hitem, IH.
    assert (Hd : deadAt clock (key, value) = negb (IsAlive (clock key) item))
      by (unfold deadAt; simpl; rewrite Hitem; reflexivity).
    rewrite filter_cons, Hd.
    destruct (IsAlive (clock key) item); simpl.
    + reflexivity.
    + rewrite <- app_assoc. reflexivity.
Qed.

Lemma gcScan_undecodable clock records deleteKeys :
  Exists (fun kv => gobDecode kv.2 = None) records ->
  exists keys, gcScan clock records deleteKeys = (keys, Some gobError).
Proof.
  revert deleteKeys.
  induction records as [| [key value] rest IH]; intros deleteKeys Hex.
  - inversion Hex.
  - simpl. unfold Decode. destruct (gobDecode value) as [item |] eqn:Hitem.
    + apply IH. inversion Hex as [? ? Hhd | ? ? Htl]; subst; [| exact Htl].
      simpl in Hhd. congruence.
    + eauto.
Qed.

Lemma gcDelete_unfold deleteKeys (db : Bucket) :
  gcDelete deleteKeys db = (foldl (fun b key => delete key b) db deleteKeys, None).
Proof. reflexivity. Qed.

Lemma gcDelete_lookup deleteKeys (db : Bucket) key :
  (gcDelete deleteKeys db).1 !! key =
    if decide (key ∈ deleteKeys) then None else db !! key.
Proof.
  rewrite gcDelete_unfold. cbn [fst]. revert db.
  induction deleteKeys as [| k ks IH]; intros db; cbn [foldl].
  - rewrite decide_False by apply not_elem_of_nil. reflexivity.
  - rewrite IH. destruct (decide (key ∈ ks)) as [Hin | Hnin].
    + rewrite decide_True by (right; exact Hin). reflexivity.
    + destruct (decide (key = k)) as [-> | Hne].
      * rewrite decide_True by left. apply bucket_lookup_delete_eq.
      * rewrite decide_False by (rewrite elem_of_cons; tauto).
        apply bucket_lookup_delete_ne. congruence.
Qed.

(** Every record decodes: the read pass collects the keys of the dead
    items, each once. *)
Lemma gcScan_Cursor_decodable clock (db : Bucket) :
  (forall key data, db !! key = Some data -> is_Some (gobDecode data)) ->
  exists deleteKeys,
    gcScan clock (Cursor db) [] = (deleteKeys, None) /\
    NoDup deleteKeys /\
    forall key, key ∈ deleteKeys <->
      exists item, readItem db key = Some item /\ IsAlive (clock key) item = false.
Proof.
  intros Hall.
  assert (HF : Forall (fun kv => is_Some (gobDecode kv.2)) (Cursor db)).
  { apply Forall_forall. intros [key data] Hin. apply elem_of_Cursor in Hin.
    exact (Hall _ _ Hin). }
  rewrite (gcScan_decodable clock _ [] HF). simpl.
  eexists. split; [reflexivity |]. split.
  - pose proof (NoDup_Cursor_keys db) as Hnd.
    revert Hnd. generalize (Cursor db). intros l.
    induction l as [| kv l IH]; simpl; intros Hnd; [constructor |].
    apply NoDup_cons in Hnd as [Hnin Hnd]. rewrite filter_cons.
    destruct (decide (deadAt clock kv = true)); simpl; [| auto].
    apply NoDup_cons. split; [| auto].
    intros Hin. apply Hnin. apply list_elem_of_fmap in Hin as (kv' & -> & Hin).
    apply list_elem_of_fmap. exists kv'. split; [reflexivity |].
    apply list_elem_of_filter in Hin. tauto.
  - intros key. rewrite list_elem_of_fmap. split.
    + intros ([k data] & -> & Hin). apply list_elem_of_filter in Hin as [Hdead Hin].
      apply elem_of_Cursor in Hin. unfold deadAt in Hdead; simpl in *.
      destruct (gobDecode data) as [item |] eqn:Hitem; [| discriminate].
      exists item. unfold readItem. rewrite Hin. split; [exact Hitem |].
      apply negb_true_iff. exact Hdead.
    + intros (item & Hread & Hdead). unfold readItem in Hread.
      destruct (db !! key) as [data |] eqn:Hdata; [| discriminate].
      exists (key, data). split; [reflexivity |].
      apply list_elem_of_filter. split.
      * unfold deadAt; simpl. rewrite Hread, Hdead. reflexivity.
      * apply elem_of_Cursor. exact Hdata.
Qed.

(** A record that does not decode: the read pass ends with an error. *)
Lemma gcScan_Cursor_undecodable clock (db : Bucket) key data :
  db !! key = Some data -> gobDecode data = None ->
  exists keys, gcScan clock (Cursor db) [] = (keys, Some gobError).
Proof.
  intros Hdata Hdec. apply gcScan_undecodable.
  apply Exists_exists. exists (key, data). split; [| exact Hdec].
  apply elem_of_Cursor. exact Hdata.
Qed.

(** Whatever the read pass meets, a key it hands to the write pass
    holds a dead item. *)
Lemma gcScan_sound clock records deleteKeys :
  forall key, key ∈ (gcScan clock records deleteKeys).1 ->
    key ∈ deleteKeys \/
    exists data item, (key, data) ∈ records /\ gobDecode data = Some item /\
                      IsAlive (clock key) item = false.
Proof.
  revert deleteKeys.
  induction records as [| [k value] rest IH]; intros deleteKeys key; simpl.
  - auto.
  - unfold Decode. destruct (gobDecode value) as [item |] eqn:Hitem; simpl; [| auto].
    intros Hin. apply IH in Hin as [Hin | (data & i & Hin & Hdec & Hdead)].
    + destruct (IsAlive (clock k) item) eqn:Halive; [auto |].
      apply elem_of_app in Hin as [Hin | Hin]; [auto |].
      apply list_elem_of_singleton in Hin as ->.
      right. exists value, item. split; [left | auto].
    + right. exists data, i. split; [right; exact Hin | auto].
Qed.


(** Every record decodes: the cycle deletes the keys of the dead items
    from the bucket the write pass runs on, and no other key. *)
Lemma gcCycle_decodable clock (db : Bucket) :
  (forall key data, db !! key = Some data -> is_Some (gobDecode data)) ->
  exists deleteKeys,
    gcScan clock (Cursor db) [] = (deleteKeys, None) /\
    NoDup deleteKeys /\
    (forall key, key ∈ deleteKeys <->
       exists item, readItem db key = Some item /\
                    IsAlive (clock key) item = false) /\
    (forall (db' : Bucket) key,
       gcCycle clock db db' !! key =
         if decide (key ∈ deleteKeys) then None else db' !! key).
Proof.
  intros Hall.
  destruct (gcScan_Cursor_decodable clock db Hall) as (ks & Hscan & Hnd & Hks).
  exists ks. repeat split; try assumption; try apply Hks.
  intros db' key. unfold gcCycle, db_View. rewrite Hscan.
  destruct ks as [| k ks]; cbn [length].
  - change (0 <? Z.of_nat 0) with false. cbv iota.
    rewrite decide_False by apply not_elem_of_nil. reflexivity.
  - change (0 <? Z.of_nat (S (length ks))) with true. cbv iota.
    apply gcDelete_lookup.
Qed.

End Sweep.

(** ** Keys with a ttl *)

Section Expiration.

Context `{Gob}.

Lemma gone_not_alive st : gone st = true -> forall item, st <> Alive item.
Proof. destruct st; simpl; intros Hg item; congruence. Qed.

Lemma keyState_readItem now (bucket : Bucket) key item :
  readItem bucket key = Some item ->
  keyState now bucket key = if IsAlive now item then Alive item else Dead item.
Proof.
  unfold readItem, keyState. destruct (bucket !! key) as [data |]; [| discriminate].
  intros ->. reflexivity.
Qed.

Lemma Get_string_item now (bucket : Bucket) key value expire :
  readItem bucket key = Some {| Value := StringValue value; ExpireTime := expire |} ->
  Get now key bucket =
    if time.IsZero expire || time.After expire now
    then Ok value else Err KeyNotExistsError.
Proof.
  intros Hread. rewrite Get_keyState, (keyState_readItem now _ _ _ Hread).
  unfold IsAlive; simpl.
  destruct (time.IsZero expire || time.After expire now); reflexivity.
Qed.

(** X9. Within [MaxSeconds], [Set] with a ttl, on a key that [Put] takes
    and that is absent or dead, gives the key exactly [ttl] seconds: [Get]
    answers before [now' + ttl] seconds and not from then on. The creation
    instant [now'] is not before the zero instant. *)
Lemma Set_ttl_Get now now' key value ttl (db : Bucket) :
  key_ok key = true ->
  gone (keyState now db key) = true ->
  0 < ttl <= MaxSeconds ->
  0 <= now' ->
  (Set_ now now' key value ttl db).2 = None /\
  readItem (Set_ now now' key value ttl db).1 key
    = Some {| Value := StringValue value;
              ExpireTime := now' + ttl * 1000000000 |} /\
  (forall r, r < now' + ttl * 1000000000 ->
     Get r key (Set_ now now' key value ttl db).1 = Ok value) /\
  (forall r, now' + ttl * 1000000000 <= r ->
     Get r key (Set_ now now' key value ttl db).1 = Err KeyNotExistsError).
Proof.
  intros Hkey Hgone Httl Hnow.
  destruct (Set_fresh now now' key value ttl db Hkey (gone_not_alive _ Hgone))
    as (Herr & Hread & _).
  unfold NewItem in Hread. rewrite getExpireTime_small in Hread by exact Httl.
  split; [exact Herr |]. split; [exact Hread |].
  split; intros r Hr; rewrite (Get_string_item _ _ _ _ _ Hread);
    unfold time.IsZero, time.After.
  - destruct (Z.ltb_spec r (now' + ttl * 1000000000)); [| lia].
    rewrite orb_true_r. reflexivity.
  - destruct (Z.ltb_spec r (now' + ttl * 1000000000)); [lia |].
    destruct (Z.eqb_spec (now' + ttl * 1000000000) 0); [lia |]. reflexivity.
Qed.

End Expiration.

(** C1. A key created by [Set] with a ttl [t > 0] is to live [t] seconds:
    alive strictly before [creation + t], dead from then on. So it is up
    to [MaxSeconds] ([Set_ttl_Get], [IsAlive_spec]); at [t = 9223372037],
    one second more, the product
    [time.Duration(ttl) * time.Second] wraps around: [Set] succeeds and
    stores an item whose expiration instant lies 9223372036709551616 ns
    before its creation, and [Get] answers [KeyNotExistsError] at the
    creation instant and at every later one. So it is under every key
    that [Put] takes; under the others [Set] stores nothing and returns
    the error of [Put]. *)
Theorem Set_ttl_overflow `{Gob} now now' r key value (db : Bucket) :
  gone (keyState now db key) = true ->
  now' <= r ->
  now' <> 9223372036709551616 ->
  (key_ok key = true ->
     (Set_ now now' key value 9223372037 db).2 = None /\
     readItem (Set_ now now' key value 9223372037 db).1 key
       = Some {| Value := StringValue value;
                 ExpireTime := now' - 9223372036709551616 |} /\
     Get r key (Set_ now now' key value 9223372037 db).1 = Err KeyNotExistsError) /\
  (key_ok key = false ->
     Set_ now now' key value 9223372037 db = (db, Some (key_error key))).
Proof.
  intros Hgone Hr Hnow. split; [| apply Set_refused]. intros Hkey.
  destruct (Set_fresh now now' key value 9223372037 db Hkey (gone_not_alive _ Hgone))
    as (Herr & Hread & _).
  unfold NewItem in Hread.
  change 9223372037 with (MaxSeconds + 1) in Hread at 2.
  rewrite getExpireTime_wraps in Hread.
  split; [exact Herr |]. split; [exact Hread |].
  rewrite (Get_string_item _ _ _ _ _ Hread). unfold time.IsZero, time.After.
  destruct (Z.ltb_spec r (now' - 9223372036709551616)); [lia |].
  destruct (Z.eqb_spec (now' - 9223372036709551616) 0); [lia |]. reflexivity.
Qed.

(** ** A permanent string key over time *)

Section Permanent.

Context `{Gob}.

Variables (key value : string).





End Permanent.


(** C3. As the claim has it, [Set] on every key that is absent or dead
    succeeds. The code does so for the keys that [Put] takes. [Set]
    returns [KeyAlreadyExistsError] exactly when the key holds an alive
    item, whatever the key. On a key that [Put] takes and that is absent
    or dead it succeeds, and the key then holds a string item with the
    value given and the expiration instant of the ttl given (none for ttl
    0, [ttl] seconds after the call up to [MaxSeconds]), in place of a
    dead item if there was one; no other key changes. On a key that [Put]
    refuses it returns the error of [Put] and the store as it was.
    [HashCreate] does the same with an item that holds the empty hash. *)
Theorem create_unless_alive `{Gob} now now' key value ttl (db : Bucket) :
  ((Set_ now now' key value ttl db).2 = Some KeyAlreadyExistsError <->
   exists item, keyState now db key = Alive item) /\
  (key_ok key = true ->
   gone (keyState now db key) = true ->
   (Set_ now now' key value ttl db).2 = None /\
   readItem (Set_ now now' key value ttl db).1 key
     = Some {| Value := StringValue value;
               ExpireTime := getExpireTime now' ttl |} /\
   (forall key', key' <> key ->
      (Set_ now now' key value ttl db).1 !! key' = db !! key')) /\
  (key_ok key = false ->
   Set_ now now' key value ttl db = (db, Some (key_error key))) /\
  ((HashCreate now now' key ttl db).2 = Some KeyAlreadyExistsError <->
   exists item, keyState now db key = Alive item) /\
  (key_ok key = true ->
   gone (keyState now db key) = true ->
   (HashCreate now now' key ttl db).2 = None /\
   readItem (HashCreate now now' key ttl db).1 key
     = Some {| Value := HashValue ∅;
               ExpireTime := getExpireTime now' ttl |} /\
   (forall key', key' <> key ->
      (HashCreate now now' key ttl db).1 !! key' = db !! key')) /\
  (key_ok key = false ->
   HashCreate now now' key ttl db = (db, Some (key_error key))) /\
  (ttl = 0 -> getExpireTime now' ttl = 0) /\
  (0 < ttl <= MaxSeconds -> getExpireTime now' ttl = now' + ttl * 1000000000).
Proof.
  assert (Hcases : (exists item, keyState now db key = Alive item) \/
                   (forall item, keyState now db key <> Alive item)).
  { destruct (keyState now db key) as [| | i | i]; eauto; right; discriminate. }
  split; [| split; [| split; [| split; [| split; [| split; [| split]]]]]].
  - destruct Hcases as [[item Hst] | Hna].
    + rewrite (Set_alive _ _ _ _ _ _ _ Hst). simpl. split; eauto.
    + split; [| intros [item Hst]; destruct (Hna _ Hst)].
      destruct (key_ok key) eqn:Hkey.
      * destruct (Set_fresh now now' key value ttl db Hkey Hna) as (Herr & _).
        rewrite Herr. discriminate.
      * rewrite (Set_refused _ _ _ _ _ _ Hkey). unfold key_error.
        destruct (Z.of_nat (String.length key) =? 0); discriminate.
  - intros Hkey Hgone.
    exact (Set_fresh now now' key value ttl db Hkey (gone_not_alive _ Hgone)).
  - apply Set_refused.
  - destruct Hcases as [[item Hst] | Hna].
    + rewrite (HashCreate_alive _ _ _ _ _ _ Hst). simpl. split; eauto.
    + split; [| intros [item Hst]; destruct (Hna _ Hst)].
      destruct (key_ok key) eqn:Hkey.
      * destruct (HashCreate_fresh now now' key ttl db Hkey Hna) as (Herr & _).
        rewrite Herr. discriminate.
      * rewrite (HashCreate_refused _ _ _ _ _ Hkey). unfold key_error.
        destruct (Z.of_nat (String.length key) =? 0); discriminate.
  - intros Hkey Hgone.
    exact (HashCreate_fresh now now' key ttl db Hkey (gone_not_alive _ Hgone)).
  - apply HashCreate_refused.
  - intros ->. reflexivity.
  - apply getExpireTime_small.
Qed.

(** C4. Each of the seven list operations returns [notSupportedError] for
    every key and every argument, on every store, and returns the store
    it was given. *)
Theorem list_operations_not_supported (db : Bucket) (key value : string)
    (ttl start stop : Z) :
  ListCreate key ttl db = (db, Some notSupportedError) /\
  ListLeftPop key db = (db, Err notSupportedError) /\
  ListRightPop key db = (db, Err notSupportedError) /\
  ListLeftPush key value db = (db, Some notSupportedError) /\
  ListRightPush key value db = (db, Some notSupportedError) /\
  ListLen key db = (db, Err notSupportedError) /\
  ListRange key start stop db = (db, Err notSupportedError).
Proof. repeat split. Qed.

(** C5. One cycle of the sweep. If every record decodes, the read pass
    collects, each once, exactly the keys whose items are dead when they
    are checked, and the cycle deletes exactly those keys from the bucket
    the write pass runs on. The write pass is one transaction that
    deletes the keys it is given and no other. A key whose item is alive
    when the read pass checks it is not deleted by the cycle. If a record
    does not decode, the read pass ends with the decoder's error and the
    cycle deletes nothing. *)
Theorem gc_cycle_spec `{Gob} clock (db : Bucket) :
  ((forall key data, db !! key = Some data -> is_Some (gobDecode data)) ->
   exists deleteKeys,
     gcScan clock (Cursor db) [] = (deleteKeys, None) /\
     NoDup deleteKeys /\
     (forall key, key ∈ deleteKeys <->
        exists item, readItem db key = Some item /\
                     IsAlive (clock key) item = false) /\
     (forall (db' : Bucket) key,
        gcCycle clock db db' !! key =
          if decide (key ∈ deleteKeys) then None else db' !! key)) /\
  (forall deleteKeys (db' : Bucket),
     (gcDelete deleteKeys db').2 = None /\
     forall key, (gcDelete deleteKeys db').1 !! key =
                   if decide (key ∈ deleteKeys) then None else db' !! key) /\
  (forall key item (db' : Bucket),
     readItem db key = Some item -> IsAlive (clock key) item = true ->
     gcCycle clock db db' !! key = db' !! key) /\
  (forall key data,
     db !! key = Some data -> gobDecode data = None ->
     (exists keys, gcScan clock (Cursor db) [] = (keys, Some gobError)) /\
     forall db' : Bucket, gcCycle clock db db' = db').
Proof.
  split; [| split; [| split]].
  - apply gcCycle_decodable.
  - intros ks db'. split; [reflexivity | intros key; apply gcDelete_lookup].
  - intros key item db' Hread Halive. unfold gcCycle, db_View.
    pose proof (gcScan_sound clock (Cursor db) [] key) as Hsound.
    destruct (gcScan clock (Cursor db) []) as [ks [err |]]; [reflexivity |].
    destruct (0 <? Z.of_nat (length ks)); [| reflexivity].
    rewrite gcDelete_lookup. rewrite decide_False; [reflexivity |].
    intros Hin. destruct (Hsound Hin) as [Hnil | (data & i & Hrec & Hdec & Hdead)].
    + inversion Hnil.
    + apply elem_of_Cursor in Hrec. unfold readItem in Hread.
      rewrite Hrec in Hread. congruence.
  - intros key data Hdata Hdec.
    destruct (gcScan_Cursor_undecodable clock db key data Hdata Hdec) as [ks Hscan].
    split; [eauto |]. intros db'. unfold gcCycle, db_View. rewrite Hscan.
    reflexivity.
Qed.

(** C6. [Update] on a key that holds an alive item of any type succeeds:
    the key then holds the string [value] with the expiration instant the
    item had, whatever the type of the item was, the other keys are left
    as they were, and [Get] returns [value]. [Update] returns
    [KeyNotExistsError] exactly when the key is absent or dead. *)
Theorem Update_spec `{Gob} now key value (db : Bucket) :
  (forall item,
     keyState now db key = Alive item ->
     (Update now key value db).2 = None /\
     readItem (Update now key value db).1 key
       = Some {| Value := StringValue value; ExpireTime := ExpireTime item |} /\
     Get now key (Update now key value db).1 = Ok value /\
     (forall key', key' <> key ->
        (Update now key value db).1 !! key' = db !! key')) /\
  ((Update now key value db).2 = Some KeyNotExistsError <->
   gone (keyState now db key) = true).
Proof.
  split.
  - intros item Hst.
    destruct (Update_alive now key value db item Hst) as (Herr & Hread & Hother).
    repeat split; try assumption.
    rewrite (Get_string_item _ _ _ _ _ Hread).
    apply keyState_Alive in Hst as [_ Halive]. unfold IsAlive in Halive.
    rewrite Halive. reflexivity.
  - destruct (keyState now db key) as [| | i | i] eqn:Hst.
    + rewrite Update_not_alive by (rewrite Hst; discriminate).
      rewrite Hst. simpl. tauto.
    + rewrite Update_not_alive by (rewrite Hst; discriminate).
      rewrite Hst. simpl. split; discriminate.
    + rewrite Update_not_alive by (rewrite Hst; discriminate).
      rewrite Hst. simpl. tauto.
    + destruct (Update_alive now key value db i Hst) as (Herr & _).
      rewrite Herr. simpl. split; discriminate.
Qed.

(** C7. As the claim has it, [HashSet] on every key that is absent or
    dead creates a hash. The code does so for the keys that [Put] takes:
    on such a key, absent or dead, [HashSet] succeeds and leaves under the
    key a hash without expiration whose only field is [field], set to
    [value], which [HashGet] returns; on a key that [Put] refuses it
    returns the error of [Put] and the store as it was. On a key that
    holds an alive item which is not a hash it returns [KeyHashTypeError]
    and the store as it was. On a key that holds an alive hash it sets
    [field] to [value] in that hash and keeps the expiration instant. *)
Theorem HashSet_spec `{Gob} now key field value (db : Bucket) :
  (key_ok key = true ->
   gone (keyState now db key) = true ->
   (HashSet now key field value db).2 = None /\
   readItem (HashSet now key field value db).1 key
     = Some {| Value := HashValue {[ field := value ]}; ExpireTime := 0 |} /\
   (forall r, HashGet r key field (HashSet now key field value db).1 = Ok value)) /\
  (key_ok key = false ->
   HashSet now key field value db = (db, Some (key_error key))) /\
  (forall item,
     keyState now db key = Alive item ->
     (forall hash, Value item <> HashValue hash) ->
     HashSet now key field value db = (db, Some KeyHashTypeError)) /\
  (forall item hash,
     keyState now db key = Alive item ->
     Value item = HashValue hash ->
     (HashSet now key field value db).2 = None /\
     readItem (HashSet now key field value db).1 key
       = Some {| Value := HashValue (<[field := value]> hash);
                 ExpireTime := ExpireTime item |} /\
     HashGet now key field (HashSet now key field value db).1 = Ok value).
Proof.
  split; [| split; [| split]].
  - intros Hkey Hgone.
    destruct (HashSet_fresh now key field value db Hkey (gone_not_alive _ Hgone))
      as (Herr & Hread & _).
    split; [exact Herr |]. split; [exact Hread |].
    intros r. unfold HashGet, db_View. rewrite getHash_keyState.
    rewrite (keyState_readItem r _ _ _ Hread).
    unfold IsAlive, CastHash, GetValue; simpl.
    rewrite lookup_singleton_eq. reflexivity.
  - apply HashSet_refused.
  - intros item Hst Hv. exact (HashSet_mismatch _ _ _ _ _ _ Hst Hv).
  - intros item hash Hst Hv.
    destruct (HashSet_hash now key field value db item hash Hst Hv)
      as (Herr & Hread & _).
    repeat split; try assumption.
    unfold HashGet, db_View. rewrite getHash_keyState.
    rewrite (keyState_readItem now _ _ _ Hread).
    apply keyState_Alive in Hst as [_ Halive].
    unfold IsAlive in *; simpl. rewrite Halive.
    unfold CastHash, GetValue; simpl. rewrite lookup_insert_eq. reflexivity.
Qed.

(** X10. [Expire] writes the expiration instant and nothing else: on a key
    that holds an alive item it succeeds, the key then holds the same
    value with the instant [getExpireTime] computes, which is the zero
    instant for ttl 0 and [ttl] seconds after [now'] up to [MaxSeconds],
    and every other key is left as it was; on a key that is absent or dead
    it returns [KeyNotExistsError] and the store as it was. *)
Lemma Expire_frame `{Gob} now now' key ttl (db : Bucket) :
  (forall item,
     keyState now db key = Alive item ->
     (Expire now now' key ttl db).2 = None /\
     readItem (Expire now now' key ttl db).1 key
       = Some {| Value := Value item; ExpireTime := getExpireTime now' ttl |} /\
     (ttl = 0 -> getExpireTime now' ttl = 0) /\
     (0 < ttl <= MaxSeconds -> getExpireTime now' ttl = now' + ttl * 1000000000) /\
     (forall key', key' <> key ->
        (Expire now now' key ttl db).1 !! key' = db !! key')) /\
  (gone (keyState now db key) = true ->
   Expire now now' key ttl db = (db, Some KeyNotExistsError)).
Proof.
  split.
  - intros item Hst.
    destruct (Expire_alive now now' key ttl db item Hst) as (Herr & Hread & Hother).
    repeat split; try assumption.
    + intros ->. reflexivity.
    + apply getExpireTime_small.
  - intros Hgone. rewrite Expire_not_alive by exact (gone_not_alive _ Hgone).
    destruct (keyState now db key); try discriminate; reflexivity.
Qed.

(** C8. [Expire] is to set the expiration instant [ttl] seconds after
    the call and to change nothing else. It changes nothing else, and up
    to [MaxSeconds] the instant is right ([Expire_frame]); at
    [ttl = 9223372037] the product [time.Duration(ttl) * time.Second]
    wraps around: [Expire] succeeds on a key that holds an alive item and
    stores an expiration instant 9223372036709551616 ns before the call,
    so that the key is dead at the instant of the call and ever after. *)
Theorem Expire_ttl_overflow `{Gob} now now' r key (db : Bucket) item :
  keyState now db key = Alive item ->
  now' <= r ->
  now' <> 9223372036709551616 ->
  (Expire now now' key 9223372037 db).2 = None /\
  keyState r (Expire now now' key 9223372037 db).1 key
    = Dead {| Value := Value item; ExpireTime := now' - 9223372036709551616 |}.
Proof.
  intros Hst Hr Hnow.
  destruct (Expire_alive now now' key 9223372037 db item Hst) as (Herr & Hread & _).
  change 9223372037 with (MaxSeconds + 1) in Hread at 2.
  rewrite getExpireTime_wraps in Hread.
  split; [exact Herr |].
  rewrite (keyState_readItem r _ _ _ Hread).
  unfold IsAlive, time.IsZero, time.After; simpl.
  destruct (Z.ltb_spec r (now' - 9223372036709551616)); [lia |].
  destruct (Z.eqb_spec (now' - 9223372036709551616) 0); [lia |]. reflexivity.
Qed.

(** ** Liveness before type *)

Section Order.

Context `{Gob}.

Lemma reply_with_Err {A : Type} (f : A -> Reply) (r : result A) err :
  reply_with f r = Err err -> r = Err err.
Proof. destruct r; simpl; congruence. Qed.

(** A typed operation other than [HashSet] on a key that is absent or
    dead answers [KeyNotExistsError]. *)
Lemma exec_gone op (db : Bucket) st :
  typed op = true -> is_HashSet op = false ->
  op_keyState op db = Some st -> gone st = true ->
  (exec op db).2 = Err KeyNotExistsError.
Proof.
  intros Htyped Hhs Hst Hgone.
  destruct op; try discriminate; unfold op_keyState in Hst; simpl in Hst;
    injection Hst as <-; simpl.
  - rewrite Get_keyState. destruct (keyState now db key); try discriminate; reflexivity.
  - unfold HashGet, db_View. rewrite getHash_keyState.
    destruct (keyState now db key); try discriminate; reflexivity.
  - unfold HashGetAll, db_View. rewrite getHash_keyState.
    destruct (keyState now db key); try discriminate; reflexivity.
  - rewrite HashDelete_not_alive by exact (gone_not_alive _ Hgone).
    destruct (keyState now db key); try discriminate; reflexivity.
  - unfold HashLen, db_View. rewrite getHash_keyState.
    destruct (keyState now db key); try discriminate; reflexivity.
  - unfold HashKeys, db_View. rewrite getHash_keyState.
    destruct (keyState now db key); try discriminate; reflexivity.
Qed.

Lemma CastString_Err item err :
  CastString item = Err err -> err = KeyStringTypeError /\ mismatch err item.
Proof.
  unfold CastString. destruct (Value item) eqn:Hv; intros [= <-];
    (split; [reflexivity | simpl; intros x; rewrite Hv; discriminate]).
Qed.

Lemma CastHash_Err item err :
  CastHash item = Err err -> err = KeyHashTypeError /\ mismatch err item.
Proof.
  unfold CastHash. destruct (Value item) eqn:Hv; intros [= <-];
    (split; [reflexivity | simpl; intros x; rewrite Hv; discriminate]).
Qed.

Lemma getHash_type_error now (db : Bucket) key err :
  getHash now db key = Err err -> type_error err = true ->
  exists item, keyState now db key = Alive item /\ mismatch err item.
Proof.
  rewrite getHash_keyState. intros Herr Hty.
  destruct (keyState now db key) as [| | i | i];
    try (injection Herr as <-; discriminate).
  exists i. split; [reflexivity |]. apply CastHash_Err in Herr. tauto.
Qed.

Ltac use_getHash Hh Hty :=
  let item := fresh "item" in
  let Hst := fresh "Hst" in
  let Hm := fresh "Hm" in
  destruct (getHash_type_error _ _ _ _ Hh Hty) as (item & Hst & Hm);
  exists item; rewrite Hst; split; [reflexivity | exact Hm].

Lemma key_error_type key : type_error (key_error key) = false.
Proof. unfold key_error. destruct (Z.of_nat (String.length key) =? 0); reflexivity. Qed.

(** On a key that holds no alive item, [Set], [HashCreate] and [HashSet]
    fail with the error of [Put] or not at all. *)
Lemma Set_not_alive_error now now' key value ttl (db : Bucket) err :
  (forall item, keyState now db key <> Alive item) ->
  (Set_ now now' key value ttl db).2 = Some err -> type_error err = false.
Proof.
  intros Hna Herr. destruct (key_ok key) eqn:Hkey.
  - destruct (Set_fresh now now' key value ttl db Hkey Hna) as (Hnone & _). congruence.
  - rewrite (Set_refused _ _ _ _ _ _ Hkey) in Herr. injection Herr as <-.
    apply key_error_type.
Qed.

Lemma HashCreate_not_alive_error now now' key ttl (db : Bucket) err :
  (forall item, keyState now db key <> Alive item) ->
  (HashCreate now now' key ttl db).2 = Some err -> type_error err = false.
Proof.
  intros Hna Herr. destruct (key_ok key) eqn:Hkey.
  - destruct (HashCreate_fresh now now' key ttl db Hkey Hna) as (Hnone & _). congruence.
  - rewrite (HashCreate_refused _ _ _ _ _ Hkey) in Herr. injection Herr as <-.
    apply key_error_type.
Qed.

Lemma HashSet_not_alive_error now key field value (db : Bucket) err :
  (forall item, keyState now db key <> Alive item) ->
  (HashSet now key field value db).2 = Some err -> type_error err = false.
Proof.
  intros Hna Herr. destruct (key_ok key) eqn:Hkey.
  - destruct (HashSet_fresh now key field value db Hkey Hna) as (Hnone & _). congruence.
  - rewrite (HashSet_refused _ _ _ _ _ Hkey) in Herr. injection Herr as <-.
    apply key_error_type.
Qed.

(** An operation that answers with a type error has found an alive item
    of another type under its key. *)
Lemma exec_type_error op (db : Bucket) err :
  (exec op db).2 = Err err -> type_error err = true ->
  exists item, op_keyState op db = Some (Alive item) /\ mismatch err item.
Proof.
  intros Herr Hty.
  destruct op; simpl in Herr; unfold op_keyState; simpl;
    try discriminate;
    try (apply reply_err_Err in Herr);
    try (apply reply_with_Err in Herr);
    try (injection Herr as <-; discriminate).
  - (* Expire *)
    destruct (keyState now db key) as [| | i | i] eqn:Hst;
      try (rewrite Expire_not_alive in Herr by (rewrite Hst; discriminate);
           rewrite Hst in Herr; injection Herr as <-; discriminate).
    destruct (Expire_alive now now' key ttl db i Hst) as (Hnone & _). congruence.
  - (* Get *)
    rewrite Get_keyState in Herr.
    destruct (keyState now db key) as [| | i | i];
      try (injection Herr as <-; discriminate).
    exists i. split; [reflexivity |]. apply CastString_Err in Herr. tauto.
  - (* Set *)
    destruct (keyState now db key) as [| | i | i] eqn:Hst;
      try (rewrite (Set_not_alive_error now now' key value ttl db err) in Hty;
           [discriminate | rewrite Hst; discriminate | exact Herr]).
    rewrite (Set_alive _ _ _ _ _ _ _ Hst) in Herr.
    injection Herr as <-; discriminate.
  - (* Update *)
    destruct (keyState now db key) as [| | i | i] eqn:Hst;
      try (rewrite Update_not_alive in Herr by (rewrite Hst; discriminate);
           rewrite Hst in Herr; injection Herr as <-; discriminate).
    destruct (Update_alive now key value db i Hst) as (Hnone & _). congruence.
  - (* Delete *)
    destruct (keyState now db key) as [| | i | i] eqn:Hst;
      try (rewrite Delete_not_alive in Herr by (rewrite Hst; discriminate);
           rewrite Hst in Herr; injection Herr as <-; discriminate).
    rewrite (Delete_alive _ _ _ _ Hst) in Herr. discriminate.
  - (* HashCreate *)
    destruct (keyState now db key) as [| | i | i] eqn:Hst;
      try (rewrite (HashCreate_not_alive_error now now' key ttl db err) in Hty;
           [discriminate | rewrite Hst; discriminate | exact Herr]).
    rewrite (HashCreate_alive _ _ _ _ _ _ Hst) in Herr.
    injection Herr as <-; discriminate.
  - (* HashGet *)
    unfold HashGet, db_View in Herr.
    destruct (getHash now db key) as [hash | e] eqn:Hh.
    + unfold GetValue in Herr. destruct (hash !! field); [discriminate |].
      injection Herr as <-; discriminate.
    + injection Herr as <-. use_getHash Hh Hty.
  - (* HashGetAll *)
    use_getHash Herr Hty.
  - (* HashSet *)
    destruct (keyState now db key) as [| | i | i] eqn:Hst;
      try (rewrite (HashSet_not_alive_error now key field value db err) in Hty;
           [discriminate | rewrite Hst; discriminate | exact Herr]).
    destruct (Value i) as [s | hash | l] eqn:Hv.
    + rewrite (HashSet_mismatch _ _ _ _ _ _ Hst) in Herr
        by (intros hash; rewrite Hv; discriminate).
      injection Herr as <-. exists i. split; [reflexivity |].
      simpl. intros hash. rewrite Hv. discriminate.
    + destruct (HashSet_hash now key field value db i hash Hst Hv) as (Hnone & _).
      congruence.
    + rewrite (HashSet_mismatch _ _ _ _ _ _ Hst) in Herr
        by (intros hash; rewrite Hv; discriminate).
      injection Herr as <-. exists i. split; [reflexivity |].
      simpl. intros hash. rewrite Hv. discriminate.
  - (* HashDelete *)
    destruct (keyState now db key) as [| | i | i] eqn:Hst;
      try (rewrite HashDelete_not_alive in Herr by (rewrite Hst; discriminate);
           rewrite Hst in Herr; injection Herr as <-; discriminate).
    destruct (Value i) as [s | hash | l] eqn:Hv.
    + rewrite (HashDelete_mismatch _ _ _ _ _ Hst) in Herr
        by (intros hash; rewrite Hv; discriminate).
      injection Herr as <-. exists i. split; [reflexivity |].
      simpl. intros hash. rewrite Hv. discriminate.
    + destruct (hash !! field) as [v |] eqn:Hf.
      * destruct (HashDelete_field now key field db i hash v Hst Hv Hf) as (Hnone & _).
        congruence.
      * rewrite (HashDelete_no_field _ _ _ _ _ _ Hst Hv Hf) in Herr.
        injection Herr as <-; discriminate.
    + rewrite (HashDelete_mismatch _ _ _ _ _ Hst) in Herr
        by (intros hash; rewrite Hv; discriminate).
      injection Herr as <-. exists i. split; [reflexivity |].
      simpl. intros hash. rewrite Hv. discriminate.
  - (* HashLen *)
    unfold HashLen, db_View in Herr.
    destruct (getHash now db key) as [hash | e] eqn:Hh; [discriminate |].
    injection Herr as <-. use_getHash Hh Hty.
  - (* HashKeys *)
    unfold HashKeys, db_View in Herr.
    destruct (getHash now db key) as [hash | e] eqn:Hh; [discriminate |].
    injection Herr as <-. use_getHash Hh Hty.
Qed.

End Order.

(** C9. The liveness check is to precede the type check in every
    operation: on a key that is absent or dead the answer is
    [KeyNotExistsError], whatever the type of a dead item, and a type
    error is the answer only for an alive item of another type. [Get],
    [HashGet], [HashGetAll], [HashDelete], [HashLen] and [HashKeys] do so,
    and no operation returns a type error for a key without an alive item
    of another type. [HashSet] breaks the first part: on a key that is
    absent or dead, and that [Put] takes, it does not return
    [KeyNotExistsError]. It answers without an error, and the key then
    holds a new hash with the one field; a dead item of whatever type is
    gone. *)
Theorem liveness_before_type `{Gob} op (db : Bucket) :
  (forall st,
     typed op = true -> is_HashSet op = false ->
     op_keyState op db = Some st -> gone st = true ->
     (exec op db).2 = Err KeyNotExistsError) /\
  (forall now key field value,
     op = OpHashSet now key field value ->
     key_ok key = true ->
     gone (keyState now db key) = true ->
     typed op = true /\
     (exec op db).2 = Ok RNil /\
     (exec op db).2 <> Err KeyNotExistsError /\
     readItem (exec op db).1 key
       = Some {| Value := HashValue {[ field := value ]}; ExpireTime := 0 |}) /\
  (forall err,
     (exec op db).2 = Err err -> type_error err = true ->
     exists item, op_keyState op db = Some (Alive item) /\ mismatch err item).
Proof.
  split; [| split].
  - intros st. apply exec_gone.
  - intros now key field value -> Hkey Hgone. simpl.
    destruct (HashSet_fresh now key field value db Hkey (gone_not_alive _ Hgone))
      as (Herr & Hread & _).
    rewrite Herr. simpl. repeat split; [discriminate | exact Hread].
  - intros err. apply exec_type_error.
Qed.

(** C10. An operation that returns an error returns the store it was
    given. [Delete] on a key whose item is dead returns
    [KeyNotExistsError] and the dead record stays where it is; a sweep
    cycle in which every record decodes and which finds the item dead
    removes it. [HashDelete] of a field that an alive hash does not have
    returns [FieldNotExistError], and whenever it returns that error the
    store is as it was. *)
Theorem error_leaves_store `{Gob} (db : Bucket) :
  (forall op err, (exec op db).2 = Err err -> (exec op db).1 = db) /\
  (forall now key item,
     keyState now db key = Dead item ->
     Delete now key db = (db, Some KeyNotExistsError) /\
     readItem (Delete now key db).1 key = Some item /\
     forall clock,
       (forall k data, db !! k = Some data -> is_Some (gobDecode data)) ->
       IsAlive (clock key) item = false ->
       gcCycle clock db db !! key = None) /\
  (forall now key field item hash,
     keyState now db key = Alive item -> Value item = HashValue hash ->
     hash !! field = None ->
     HashDelete now key field db = (db, Some FieldNotExistError)) /\
  (forall now key field,
     (HashDelete now key field db).2 = Some FieldNotExistError ->
     (HashDelete now key field db).1 = db).
Proof.
  split; [| split; [| split]].
  - intros op err. apply exec_err.
  - intros now key item Hst.
    assert (Hdel : Delete now key db = (db, Some KeyNotExistsError)).
    { rewrite Delete_not_alive by (rewrite Hst; discriminate).
      rewrite Hst. reflexivity. }
    split; [exact Hdel |]. rewrite Hdel. simpl.
    apply keyState_Dead in Hst as [Hread _].
    split; [exact Hread |]. intros clock Hall Hdead.
    destruct (gcCycle_decodable clock db Hall) as (ks & _ & _ & Hks & Hlookup).
    rewrite Hlookup. rewrite decide_True; [reflexivity |].
    apply Hks. eauto.
  - intros now key field item hash Hst Hv Hf.
    exact (HashDelete_no_field _ _ _ _ _ _ Hst Hv Hf).
  - intros now key field Herr. exact (db_Update_err _ _ _ Herr).
Qed.

(** * Further properties of the storage *)

(** ** The order of keys *)

Lemma ascii_compare_trans_le (a b c : Ascii.ascii) :
  Ascii.compare a b <> Gt -> Ascii.compare b c <> Gt -> Ascii.compare a c <> Gt.
Proof.
  unfold Ascii.compare. rewrite !N.compare_gt_iff. lia.
Qed.

Lemma ascii_compare_Eq_eq (a b : Ascii.ascii) : Ascii.compare a b = Eq <-> a = b.
Proof.
  split; [apply Ascii.compare_eq_iff |].
  intros ->. unfold Ascii.compare. apply N.compare_refl.
Qed.

Lemma string_compare_trans_le (a b c : string) :
  String.compare a b <> Gt -> String.compare b c <> Gt -> String.compare a c <> Gt.
Proof.
  revert b c. induction a as [| x a IH]; intros [| y b] [| z c]; simpl;
    try congruence.
  destruct (Ascii.compare x y) eqn:Hxy; try congruence;
    destruct (Ascii.compare y z) eqn:Hyz; try congruence; intros Hab Hbc.
  - apply ascii_compare_Eq_eq in Hxy as ->. apply ascii_compare_Eq_eq in Hyz as ->.
    rewrite (proj2 (ascii_compare_Eq_eq z z) eq_refl). eauto.
  - apply ascii_compare_Eq_eq in Hxy as ->. rewrite Hyz. discriminate.
  - apply ascii_compare_Eq_eq in Hyz as ->. rewrite Hxy. discriminate.
  - assert (Hxz : Ascii.compare x z <> Gt)
      by (apply (ascii_compare_trans_le x y z); congruence).
    unfold Ascii.compare in *. rewrite N.compare_lt_iff in Hxy, Hyz.
    destruct (N.compare_spec (Ascii.N_of_ascii x) (Ascii.N_of_ascii z));
      try discriminate; lia.
Qed.

Lemma str_le_compare a b : str_le a b <-> String.compare a b <> Gt.
Proof.
  unfold str_le, String.leb. destruct (String.compare a b); split; congruence.
Qed.

Global Instance str_le_trans : Transitive str_le.
Proof.
  intros a b c. rewrite !str_le_compare. apply string_compare_trans_le.
Qed.

Global Instance str_le_total : Total str_le.
Proof. intros a b. apply String.leb_total. Qed.

Lemma str_le_antisym a b : str_le a b -> str_le b a -> a = b.
Proof. apply String.leb_antisym. Qed.

Global Instance key_le_trans : Transitive key_le.
Proof. intros x y z. unfold key_le. apply str_le_trans. Qed.

Global Instance key_le_total : Total key_le.
Proof. intros x y. unfold key_le. apply str_le_total. Qed.

Lemma elem_of_sort_Strings k l : k ∈ sort_Strings l <-> k ∈ l.
Proof. unfold sort_Strings. rewrite merge_sort_Permutation. reflexivity. Qed.

Lemma NoDup_sort_Strings l : NoDup l -> NoDup (sort_Strings l).
Proof. unfold sort_Strings. rewrite merge_sort_Permutation. auto. Qed.

Lemma Sorted_sort_Strings l : Sorted str_le (sort_Strings l).
Proof. unfold sort_Strings. apply Sorted_merge_sort. apply _. Qed.

Lemma length_sort_Strings l : length (sort_Strings l) = length l.
Proof. unfold sort_Strings. rewrite merge_sort_Permutation. reflexivity. Qed.

(** ** Keys *)

Section KeysFacts.

Context `{Gob}.

Lemma keysLoop_decodable clock records keys :
  Forall (fun kv => is_Some (gobDecode kv.2)) records ->
  keysLoop clock records keys =
    (keys ++ (filter (fun kv => deadAt clock kv = false) records).*1, None).
Proof.
  intros Hall. revert keys.
  induction Hall as [| [key value] rest [item Hitem] _ IH]; intros keys; simpl.
  - rewrite app_nil_r. reflexivity.
  - simpl in Hitem. unfold Decode. rewrite Hitem, IH.
    assert (Hd : deadAt clock (key, value) = negb (IsAlive (clock key) item))
      by (unfold deadAt; simpl; rewrite Hitem; reflexivity).
    rewrite filter_cons, Hd.
    destruct (IsAlive (clock key) item); simpl.
    + rewrite <- app_assoc. reflexivity.
    + reflexivity.
Qed.

(** Whatever the loop meets, a key it collects holds an alive item. *)
Lemma keysLoop_sound clock records keys :
  forall key, key ∈ (keysLoop clock records keys).1 ->
    key ∈ keys \/
    exists data item, (key, data) ∈ records /\ gobDecode data = Some item /\
                      IsAlive (clock key) item = true.
Proof.
  revert keys.
  induction records as [| [k value] rest IH]; intros keys key; simpl.
  - auto.
  - unfold Decode. destruct (gobDecode value) as [item |] eqn:Hitem; simpl; [| auto].
    intros Hin. apply IH in Hin as [Hin | (data & i & Hin & Hdec & Halive)].
    + destruct (IsAlive (clock k) item) eqn:Halive; [| auto].
      apply elem_of_app in Hin as [Hin | Hin]; [auto |].
      apply list_elem_of_singleton in Hin as ->.
      right. exists value, item. split; [left | auto].
    + right. exists data, i. split; [right; exact Hin | auto].
Qed.

(** The loop ends at the first record that does not decode. *)
Lemma keysLoop_stop clock pre bad data post keys :
  gobDecode data = None ->
  keysLoop clock (pre ++ (bad, data) :: post) keys
  = keysLoop clock (pre ++ [(bad, data)]) keys.
Proof.
  intros Hdec. revert keys.
  induction pre as [| [k value] pre IH]; intros keys; simpl.
  - unfold Decode. rewrite Hdec. reflexivity.
  - destruct (Decode value); [apply IH | reflexivity].
Qed.

Lemma StronglySorted_Cursor (db : Bucket) : StronglySorted key_le (Cursor db).
Proof. unfold Cursor. apply StronglySorted_merge_sort; apply _. Qed.

End KeysFacts.

(** X1. In a store whose records all decode, [Keys] returns the keys that
    hold an item alive at the instant its record is checked, each once, in
    ascending byte order. *)
Theorem Keys_spec `{Gob} clock (db : Bucket) :
  decodable db ->
  Sorted str_le (Keys clock db) /\
  NoDup (Keys clock db) /\
  forall key,
    key ∈ Keys clock db <-> exists item, keyState (clock key) db key = Alive item.
Proof.
  intros Hall.
  assert (HF : Forall (fun kv => is_Some (gobDecode kv.2)) (Cursor db)).
  { apply Forall_forall. intros [key data] Hin. apply elem_of_Cursor in Hin.
    exact (Hall _ _ Hin). }
  unfold Keys, db_View. rewrite (keysLoop_decodable clock _ [] HF). simpl.
  split; [apply Sorted_sort_Strings |]. split.
  - apply NoDup_sort_Strings.
    pose proof (NoDup_Cursor_keys db) as Hnd.
    revert Hnd. generalize (Cursor db). intros l.
    induction l as [| kv l IH]; simpl; intros Hnd; [constructor |].
    apply NoDup_cons in Hnd as [Hnin Hnd]. rewrite filter_cons.
    destruct (decide (deadAt clock kv = false)); simpl; [| auto].
    apply NoDup_cons. split; [| auto].
    intros Hin. apply Hnin. apply list_elem_of_fmap in Hin as (kv' & -> & Hin).
    apply list_elem_of_fmap. exists kv'. split; [reflexivity |].
    apply list_elem_of_filter in Hin. tauto.
  - intros key. rewrite elem_of_sort_Strings, list_elem_of_fmap. split.
    + intros ([k data] & -> & Hin). apply list_elem_of_filter in Hin as [Hdead Hin].
      apply elem_of_Cursor in Hin. simpl.
      destruct (Hall _ _ Hin) as [item Hitem].
      unfold deadAt in Hdead; simpl in Hdead. rewrite Hitem in Hdead.
      apply negb_false_iff in Hdead.
      exists item. apply keyState_Alive. unfold readItem. rewrite Hin. auto.
    + intros (item & Hst). apply keyState_Alive in Hst as [Hread Halive].
      unfold readItem in Hread.
      destruct (db !! key) as [data |] eqn:Hdata; [| discriminate].
      exists (key, data). split; [reflexivity |].
      apply list_elem_of_filter. split.
      * unfold deadAt; simpl. rewrite Hread, Halive. reflexivity.
      * apply elem_of_Cursor. exact Hdata.
Qed.

(** X2. In any store, every key [Keys] returns holds an alive item and the
    result is in ascending order; a record that does not decode is not
    reported, and no key at or after it in byte order is returned. *)
Theorem Keys_truncated `{Gob} clock (db : Bucket) :
  Sorted str_le (Keys clock db) /\
  (forall key,
     key ∈ Keys clock db -> exists item, keyState (clock key) db key = Alive item) /\
  (forall bad data,
     db !! bad = Some data -> gobDecode data = None ->
     forall key, str_le bad key -> key ∉ Keys clock db).
Proof.
  split; [apply Sorted_sort_Strings |]. split.
  - intros key Hin. unfold Keys, db_View in Hin. rewrite elem_of_sort_Strings in Hin.
    apply keysLoop_sound in Hin as [Hnil | (data & item & Hrec & Hdec & Halive)].
    + inversion Hnil.
    + apply elem_of_Cursor in Hrec. exists item. apply keyState_Alive.
      unfold readItem. rewrite Hrec. auto.
  - intros bad data Hdata Hdec key Hle Hin.
    unfold Keys, db_View in Hin. rewrite elem_of_sort_Strings in Hin.
    pose proof (StronglySorted_Cursor db) as Hsorted.
    pose proof (NoDup_Cursor_keys db) as Hnd.
    apply elem_of_Cursor in Hdata.
    apply list_elem_of_split in Hdata as (pre & post & Hsplit).
    rewrite Hsplit in Hin, Hsorted, Hnd.
    rewrite (keysLoop_stop _ _ _ _ _ _ Hdec) in Hin.
    apply keysLoop_sound in Hin as [Hnil | (d & item & Hrec & Hd & _)];
      [inversion Hnil |].
    apply elem_of_app in Hrec as [Hpre | Hbad].
    + assert (Hkb : key_le (key, d) (bad, data)).
      { apply (StronglySorted_app_1_elem_of _ pre ((bad, data) :: post));
          [exact Hsorted | exact Hpre | left]. }
      assert (key = bad) as -> by (apply str_le_antisym; assumption).
      rewrite fmap_app in Hnd. apply NoDup_app in Hnd as (_ & Hdisj & _).
      apply (Hdisj bad).
      * apply list_elem_of_fmap. exists (bad, d). auto.
      * simpl. left.
    + apply list_elem_of_singleton in Hbad. injection Hbad as _ ->. congruence.
Qed.

(** ** Delete *)

(** X3. [Delete] on a key that holds an alive item succeeds and removes
    the record: the key is then absent at every instant, [Get] and a
    second [Delete] answer [KeyNotExistsError], [Set] may create the key
    again, and every other key is left as it was. *)
Theorem Delete_spec `{Gob} now key (db : Bucket) item :
  keyState now db key = Alive item ->
  (Delete now key db).2 = None /\
  (forall r, keyState r (Delete now key db).1 key = Absent) /\
  (forall r, Get r key (Delete now key db).1 = Err KeyNotExistsError) /\
  (forall r, Delete r key (Delete now key db).1
             = ((Delete now key db).1, Some KeyNotExistsError)) /\
  (forall r r' value ttl,
     (Set_ r r' key value ttl (Delete now key db).1).2 = None) /\
  (forall key', key' <> key -> (Delete now key db).1 !! key' = db !! key').
Proof.
  intros Hst. pose proof (keyState_Alive_key_ok _ _ _ _ Hst) as Hkey.
  rewrite (Delete_alive _ _ _ _ Hst). simpl.
  assert (Habs : forall r, keyState r (delete key db) key = Absent)
    by (intros r; apply keyState_Absent, bucket_lookup_delete_eq).
  split; [reflexivity |]. split; [exact Habs |]. split; [| split; [| split]].
  - intros r. rewrite Get_keyState, Habs. reflexivity.
  - intros r. rewrite Delete_not_alive by (rewrite Habs; discriminate).
    rewrite Habs. reflexivity.
  - intros r r' value ttl.
    apply (Set_fresh r r' key value ttl (delete key db) Hkey).
    rewrite Habs. discriminate.
  - intros key' Hne. apply bucket_lookup_delete_ne. congruence.
Qed.

(** ** Hashes *)

Section HashFacts.

Context `{Gob}.

Lemma getHash_Alive now (db : Bucket) key item hash :
  keyState now db key = Alive item -> Value item = HashValue hash ->
  getHash now db key = Ok hash.
Proof.
  intros Hst Hv. rewrite getHash_keyState, Hst. unfold CastHash. rewrite Hv.
  reflexivity.
Qed.

(** A hash written under a key whose item was alive at [now] is read back
    at [now]. *)
Lemma getHash_written now (db db' : Bucket) key item hash' :
  keyState now db key = Alive item ->
  readItem db' key = Some {| Value := HashValue hash'; ExpireTime := ExpireTime item |} ->
  getHash now db' key = Ok hash'.
Proof.
  intros Hst Hread. rewrite getHash_keyState, (keyState_readItem now _ _ _ Hread).
  apply keyState_Alive in Hst as [_ Halive].
  unfold IsAlive in *; simpl. rewrite Halive. reflexivity.
Qed.

End HashFacts.

(** X4. [HashSet] on a key that holds an alive hash changes the one field:
    [HashGetAll] then returns the hash with [field] set to [value],
    [HashGet] of every other field answers as before, and [HashLen] is one
    more if the field is new and the same if it was there. *)
Theorem HashSet_fields `{Gob} now key field value (db : Bucket) item hash :
  keyState now db key = Alive item ->
  Value item = HashValue hash ->
  HashGetAll now key (HashSet now key field value db).1
    = Ok (<[field := value]> hash) /\
  (forall other, other <> field ->
     HashGet now key other (HashSet now key field value db).1
     = HashGet now key other db) /\
  HashLen now key db = Ok (Z.of_nat (size hash)) /\
  HashLen now key (HashSet now key field value db).1
    = Ok (Z.of_nat (size hash)
          + match hash !! field with Some _ => 0 | None => 1 end).
Proof.
  intros Hst Hv.
  destruct (HashSet_hash now key field value db item hash Hst Hv) as (_ & Hread & _).
  pose proof (getHash_written now db _ key item _ Hst Hread) as Hnew.
  pose proof (getHash_Alive now db key item hash Hst Hv) as Hold.
  split; [exact Hnew |]. split; [| split].
  - intros other Hne. unfold HashGet, db_View. rewrite Hnew, Hold.
    unfold GetValue. rewrite lookup_insert_ne by congruence. reflexivity.
  - unfold HashLen, db_View. rewrite Hold. reflexivity.
  - unfold HashLen, db_View. rewrite Hnew. f_equal.
    rewrite map_size_insert. destruct (hash !! field); simpl; lia.
Qed.

(** X5. [HashDelete] of a field that an alive hash has succeeds and removes
    that field only: [HashGet] of it then answers [FieldNotExistError], as
    does a second [HashDelete]; every other field answers as before;
    [HashLen] is one less; the expiration instant and the other keys are
    left as they were. *)
Theorem HashDelete_spec `{Gob} now key field (db : Bucket) item hash value :
  keyState now db key = Alive item ->
  Value item = HashValue hash ->
  hash !! field = Some value ->
  (HashDelete now key field db).2 = None /\
  readItem (HashDelete now key field db).1 key
    = Some {| Value := HashValue (delete field hash);
              ExpireTime := ExpireTime item |} /\
  HashGet now key field (HashDelete now key field db).1 = Err FieldNotExistError /\
  (HashDelete now key field (HashDelete now key field db).1).2
    = Some FieldNotExistError /\
  (forall other, other <> field ->
     HashGet now key other (HashDelete now key field db).1
     = HashGet now key other db) /\
  HashLen now key (HashDelete now key field db).1
    = Ok (Z.of_nat (size hash) - 1) /\
  (forall key', key' <> key -> (HashDelete now key field db).1 !! key' = db !! key').
Proof.
  intros Hst Hv Hf.
  destruct (HashDelete_field now key field db item hash value Hst Hv Hf)
    as (Herr & Hread & Hother).
  pose proof (getHash_written now db _ key item _ Hst Hread) as Hnew.
  pose proof (getHash_Alive now db key item hash Hst Hv) as Hold.
  split; [exact Herr |]. split; [exact Hread |].
  split; [| split; [| split; [| split]]].
  - unfold HashGet, db_View. rewrite Hnew. unfold GetValue.
    rewrite lookup_delete_eq. reflexivity.
  - assert (Hst' : keyState now (HashDelete now key field db).1 key
                   = Alive {| Value := HashValue (delete field hash);
                              ExpireTime := ExpireTime item |}).
    { rewrite (keyState_readItem now _ _ _ Hread).
      apply keyState_Alive in Hst as [_ Halive].
      unfold IsAlive in *; simpl. rewrite Halive. reflexivity. }
    rewrite (HashDelete_no_field now key field _ _ (delete field hash) Hst' eq_refl);
      [reflexivity | apply lookup_delete_eq].
  - intros other Hne. unfold HashGet, db_View. rewrite Hnew, Hold.
    unfold GetValue. rewrite lookup_delete_ne by congruence. reflexivity.
  - unfold HashLen, db_View. rewrite Hnew. f_equal.
    rewrite map_size_delete, Hf. simpl.
    assert (size hash <> 0%nat)
      by (apply map_size_ne_0_lookup_2 with field; eauto).
    lia.
  - exact Hother.
Qed.

(** X6. On a key that holds an alive hash, [HashKeys] returns the fields of
    the hash, each once, in ascending byte order; they are the fields for
    which [HashGet] succeeds, with the values [HashGetAll] gives, and
    [HashLen] is their number. *)
Theorem HashKeys_spec `{Gob} now key (db : Bucket) item hash :
  keyState now db key = Alive item ->
  Value item = HashValue hash ->
  exists fields,
    HashKeys now key db = Ok fields /\
    Sorted str_le fields /\
    NoDup fields /\
    (forall field, field ∈ fields <-> is_Some (hash !! field)) /\
    (forall field value,
       HashGet now key field db = Ok value <-> hash !! field = Some value) /\
    HashGetAll now key db = Ok hash /\
    HashLen now key db = Ok (Z.of_nat (length fields)).
Proof.
  intros Hst Hv.
  pose proof (getHash_Alive now db key item hash Hst Hv) as Hold.
  exists (sort_Strings (map_to_list hash).*1).
  split; [unfold HashKeys, db_View; rewrite Hold; reflexivity |].
  split; [apply Sorted_sort_Strings |].
  split; [apply NoDup_sort_Strings, NoDup_fst_map_to_list |].
  split; [| split; [| split]].
  - intros field. rewrite elem_of_sort_Strings, list_elem_of_fmap. split.
    + intros ([f v] & -> & Hin). apply elem_of_map_to_list in Hin. eauto.
    + intros [v Hf]. exists (field, v). split; [reflexivity |].
      apply elem_of_map_to_list. exact Hf.
  - intros field value. unfold HashGet, db_View. rewrite Hold. unfold GetValue.
    destruct (hash !! field); split; congruence.
  - exact Hold.
  - unfold HashLen, db_View. rewrite Hold. f_equal. f_equal.
    rewrite length_sort_Strings, length_fmap. symmetry. apply length_map_to_list.
Qed.

(** X7. The type given to a key when it was created is checked by every
    typed operation while the item is alive: on a string, the six hash
    operations answer [KeyHashTypeError] and write nothing; on a hash,
    [Get] answers [KeyStringTypeError]. *)
Theorem wrong_type_rejected `{Gob} now key (db : Bucket) item :
  keyState now db key = Alive item ->
  (forall s,
     Value item = StringValue s ->
     Get now key db = Ok s /\
     (forall field, HashGet now key field db = Err KeyHashTypeError) /\
     HashGetAll now key db = Err KeyHashTypeError /\
     HashLen now key db = Err KeyHashTypeError /\
     HashKeys now key db = Err KeyHashTypeError /\
     (forall field value,
        HashSet now key field value db = (db, Some KeyHashTypeError)) /\
     (forall field, HashDelete now key field db = (db, Some KeyHashTypeError))) /\
  (forall hash,
     Value item = HashValue hash ->
     Get now key db = Err KeyStringTypeError).
Proof.
  intros Hst. split.
  - intros s Hv.
    assert (Hh : getHash now db key = Err KeyHashTypeError).
    { rewrite getHash_keyState, Hst. unfold CastHash. rewrite Hv. reflexivity. }
    assert (Hnot : forall hash, Value item <> HashValue hash)
      by (intros hash; rewrite Hv; discriminate).
    repeat split.
    + rewrite Get_keyState, Hst. unfold CastString. rewrite Hv. reflexivity.
    + intros field. unfold HashGet, db_View. rewrite Hh. reflexivity.
    + exact Hh.
    + unfold HashLen, db_View. rewrite Hh. reflexivity.
    + unfold HashKeys, db_View. rewrite Hh. reflexivity.
    + intros field value. exact (HashSet_mismatch _ _ _ _ _ _ Hst Hnot).
    + intros field. exact (HashDelete_mismatch _ _ _ _ _ Hst Hnot).
  - intros hash Hv. rewrite Get_keyState, Hst. unfold CastString. rewrite Hv.
    reflexivity.
Qed.

(** ** Lifetimes *)

Lemma int64_range z : - 2 ^ 63 <= int64 z < 2 ^ 63.
Proof.
  unfold int64. pose proof (Z.mod_pos_bound (z + 2 ^ 63) (2 ^ 64)). lia.
Qed.

(** X8. For a ttl [ttl > 0], [getExpireTime] returns the instant [ttl]
    seconds after [now] exactly when [ttl] is at most [MaxSeconds]; for a
    larger ttl the instant it returns is another one, less than [2^63]
    nanoseconds after [now]. *)
Theorem getExpireTime_exact_iff now ttl :
  0 < ttl ->
  (getExpireTime now ttl = now + ttl * 1000000000 <-> ttl <= MaxSeconds) /\
  getExpireTime now ttl < now + 2 ^ 63.
Proof.
  intros Hpos. split; [split |].
  - intros Heq. unfold getExpireTime, time.Add, time.mul in Heq.
    destruct (Z.ltb_spec 0 ttl) as [_ | ?]; [| lia].
    pose proof (int64_range (time.ToDuration ttl * time.Second)) as Hr.
    unfold MaxSeconds. lia.
  - intros Hle. apply getExpireTime_small. lia.
  - unfold getExpireTime, time.Add, time.mul.
    destruct (Z.ltb_spec 0 ttl) as [_ | ?]; [| lia].
    pose proof (int64_range (time.ToDuration ttl * time.Second)). lia.
Qed.

(** X11. [Expire] seen by a reader of a string key: with ttl 0 the key
    answers at every instant from then on, whatever expiration it had;
    with a ttl up to [MaxSeconds] it answers strictly before [ttl] seconds
    after the call and answers [KeyNotExistsError] from then on. *)
Theorem Expire_then_Get `{Gob} now now' key ttl (db : Bucket) item value :
  keyState now db key = Alive item ->
  Value item = StringValue value ->
  0 <= now' ->
  (ttl = 0 -> forall r, Get r key (Expire now now' key ttl db).1 = Ok value) /\
  (0 < ttl <= MaxSeconds ->
   (forall r, r < now' + ttl * 1000000000 ->
      Get r key (Expire now now' key ttl db).1 = Ok value) /\
   (forall r, now' + ttl * 1000000000 <= r ->
      Get r key (Expire now now' key ttl db).1 = Err KeyNotExistsError)).
Proof.
  intros Hst Hv Hnow.
  destruct (Expire_alive now now' key ttl db item Hst) as (_ & Hread & _).
  rewrite Hv in Hread. split.
  - intros -> r. rewrite (Get_string_item _ _ _ _ _ Hread). reflexivity.
  - intros Httl. rewrite getExpireTime_small in Hread by exact Httl.
    split; intros r Hr; rewrite (Get_string_item _ _ _ _ _ Hread);
      unfold time.IsZero, time.After.
    + destruct (Z.ltb_spec r (now' + ttl * 1000000000)); [| lia].
      rewrite orb_true_r. reflexivity.
    + destruct (Z.ltb_spec r (now' + ttl * 1000000000)); [lia |].
      destruct (Z.eqb_spec (now' + ttl * 1000000000) 0); [lia |]. reflexivity.
Qed.

(** ** Dead records and the sweep, seen by the operations *)

Section Lazy.

Context `{Gob}.

Lemma IsAlive_mono now r item :
  IsAlive now item = false -> now <= r -> IsAlive r item = false.
Proof.
  unfold IsAlive, time.IsZero, time.After. rewrite !orb_false_iff, !Z.ltb_ge.
  intros [Hz Hlt] Hr. split; [exact Hz | lia].
Qed.

Lemma getItem_ext now (b1 b2 : Bucket) key :
  b1 !! key = b2 !! key -> getItem now b1 key = getItem now b2 key.
Proof. unfold getItem, bucket_Get. intros ->. reflexivity. Qed.

Lemma db_Update_snd fn (db : Bucket) : (db_Update fn db).2 = (fn db).2.
Proof. rewrite db_Update_unfold. destruct (fn db).2; reflexivity. Qed.

Lemma saveItem_snd (bucket : Bucket) key item :
  (saveItem bucket key item).2
  = match gobEncode item with
    | Some _ => if key_ok key then None else Some (key_error key)
    | None => Some gobError
    end.
Proof.
  unfold saveItem, Encode. destruct (gobEncode item); [| reflexivity].
  apply bucket_Put_snd.
Qed.

(** What an operation answers depends on the store through [getItem] on
    its key only. *)
Lemma exec_reply_getItem op (db1 db2 : Bucket) key now :
  op_key op = Some key -> op_now op = Some now ->
  getItem now db1 key = getItem now db2 key ->
  (exec op db1).2 = (exec op db2).2.
Proof.
  intros Hkey Hnow Heq.
  destruct op; simpl in Hkey, Hnow; try discriminate;
    injection Hkey as ->; injection Hnow as ->; simpl;
    unfold Expire, Get, Set_, Update, Delete, HashCreate, HashGet, HashGetAll,
      HashSet, HashDelete, HashLen, HashKeys, getHash, db_View;
    rewrite ?db_Update_snd; cbv beta; rewrite Heq;
    destruct (getItem now db2 key) as [item | err]; simpl;
    rewrite ?saveItem_snd; try reflexivity;
    repeat match goal with
           | |- context [CastHash ?i] => destruct (CastHash i); simpl
           | |- context [GetValue ?h ?f] => destruct (GetValue h f); simpl
           end;
    rewrite ?saveItem_snd; reflexivity.
Qed.

Lemma getItem_Dead now (db : Bucket) key item :
  keyState now db key = Dead item ->
  getItem now (delete key db) key = getItem now db key.
Proof.
  intros Hst. rewrite !getItem_keyState, Hst.
  rewrite (proj2 (keyState_Absent now (delete key db) key))
    by apply bucket_lookup_delete_eq.
  reflexivity.
Qed.

(** A sweep cycle does not change what [getItem] finds under a key at an
    instant that is not before the one at which the read pass checked it,
    when the write pass finds under the key the record that the read pass
    saw. The read pass runs on [db], the write pass on [db']. *)
Lemma getItem_gcCycle clock (db db' : Bucket) key now :
  clock key <= now ->
  db' !! key = db !! key ->
  getItem now (gcCycle clock db db') key = getItem now db' key.
Proof.
  intros Hnow Hsame. unfold gcCycle, db_View.
  pose proof (gcScan_sound clock (Cursor db) [] key) as Hsound.
  destruct (gcScan clock (Cursor db) []) as [ks [err |]]; [reflexivity |].
  destruct (0 <? Z.of_nat (length ks)); [| reflexivity].
  destruct (decide (key ∈ ks)) as [Hin | Hnin].
  - destruct (Hsound Hin) as [Hnil | (data & item & Hrec & Hdec & Hdead)];
      [inversion Hnil |].
    apply elem_of_Cursor in Hrec.
    assert (Hst : keyState now db' key = Dead item).
    { apply keyState_Dead. unfold readItem. rewrite Hsame, Hrec.
      split; [exact Hdec |]. exact (IsAlive_mono _ _ _ Hdead Hnow). }
    rewrite !getItem_keyState, Hst.
    rewrite (proj2 (keyState_Absent now _ key)); [reflexivity |].
    rewrite gcDelete_lookup, decide_True by exact Hin. reflexivity.
  - apply getItem_ext. rewrite gcDelete_lookup, decide_False by exact Hnin.
    reflexivity.
Qed.

End Lazy.

(** X12. Lazy expiration: an operation on a key whose item is dead answers
    as it does when the record is not there at all. The two stores it
    leaves agree on every other key, and on the key itself whenever the
    operation succeeded; they differ only in that a failed operation
    leaves the dead record where it was. *)
Theorem expired_as_absent `{Gob} op (db : Bucket) key now item :
  op_key op = Some key -> op_now op = Some now ->
  keyState now db key = Dead item ->
  (exec op (delete key db)).2 = (exec op db).2 /\
  (forall key', key' <> key ->
     (exec op (delete key db)).1 !! key' = (exec op db).1 !! key') /\
  (forall reply,
     (exec op db).2 = Ok reply ->
     (exec op (delete key db)).1 !! key = (exec op db).1 !! key).
Proof.
  intros Hkey Hnow Hst.
  pose proof (keyState_Dead_key_ok _ _ _ _ Hst) as Hok.
  assert (Habs : keyState now (delete key db) key = Absent)
    by (apply keyState_Absent, bucket_lookup_delete_eq).
  split; [| split].
  - apply (exec_reply_getItem op _ _ key now Hkey Hnow).
    exact (getItem_Dead _ _ _ _ Hst).
  - intros key' Hne.
    rewrite !exec_other by (rewrite Hkey; congruence).
    apply bucket_lookup_delete_ne. congruence.
  - intros reply Hreply.
    pose proof (getItem_keyState now db key) as Hdb. rewrite Hst in Hdb.
    pose proof (getItem_keyState now (delete key db) key) as Hdel.
    rewrite Habs in Hdel.
    destruct op; simpl in Hkey, Hnow; try discriminate;
      injection Hkey as ->; injection Hnow as ->; simpl in Hreply |- *;
      unfold Expire, Get, Set_, Update, Delete, HashCreate, HashGet, HashGetAll,
        HashSet, HashDelete, HashLen, HashKeys, getHash, db_View in Hreply |- *;
      rewrite ?db_Update_unfold in Hreply; rewrite ?db_Update_unfold;
      cbv beta in Hreply |- *;
      rewrite ?Hdb in Hreply; rewrite ?Hdb, ?Hdel; simpl in Hreply |- *;
      try discriminate;
      unfold saveItem, Encode in Hreply |- *;
      repeat match goal with
             | |- context [gobEncode ?i] =>
                 destruct (gobEncode i); simpl in Hreply |- *
             end;
      try discriminate;
      rewrite !(bucket_Put_ok _ _ _ Hok); simpl;
      rewrite !bucket_lookup_insert_eq by exact Hok; reflexivity.
Qed.

(** X13. A sweep cycle is not seen by the operations. The read pass runs
    on the store [db], the write pass on the store [db'] of a later
    instant; if the write pass finds under the key the record the read
    pass saw, then at an instant that is not before the one at which the
    read pass checked the key, an operation on the key answers on the
    swept store as it does on [db']. *)
Theorem sweep_invisible `{Gob} clock op (db db' : Bucket) key now :
  op_key op = Some key -> op_now op = Some now ->
  clock key <= now ->
  db' !! key = db !! key ->
  (exec op (gcCycle clock db db')).2 = (exec op db').2.
Proof.
  intros Hkey Hnow Hle Hsame.
  apply (exec_reply_getItem op _ _ key now Hkey Hnow).
  exact (getItem_gcCycle clock db db' key now Hle Hsame).
Qed.

(** ** Stores that the operations build *)

Section Invariant.

Context `{Gob}.

Lemma decodable_empty : decodable ∅.
Proof. intros key data Hl. rewrite bucket_lookup_empty in Hl. discriminate. Qed.

Lemma saveItem_decodable (bucket : Bucket) key item :
  decodable bucket -> decodable (saveItem bucket key item).1.
Proof.
  intros Hdb. unfold saveItem, Encode.
  destruct (gobEncode item) as [buf |] eqn:Hbuf; simpl; [| exact Hdb].
  intros k data Hl. destruct (decide (key = k)) as [-> | Hne].
  - destruct (key_ok k) eqn:Hk.
    + rewrite bucket_Put_ok in Hl by exact Hk. simpl in Hl.
      rewrite bucket_lookup_insert_eq in Hl by exact Hk.
      injection Hl as <-. rewrite (gobDecode_Encode _ _ Hbuf). eauto.
    + rewrite bucket_Put_refused in Hl by exact Hk. exact (Hdb _ _ Hl).
  - rewrite bucket_Put_other in Hl by exact Hne. exact (Hdb _ _ Hl).
Qed.

Lemma delete_decodable (bucket : Bucket) key :
  decodable bucket -> decodable (bucket_Delete bucket key).1.
Proof.
  intros Hdb k data Hl. simpl in Hl. apply bucket_lookup_delete_Some in Hl as [_ Hl].
  exact (Hdb _ _ Hl).
Qed.

Lemma db_Update_decodable fn (db : Bucket) :
  (forall bucket : Bucket, decodable bucket -> decodable (fn bucket).1) ->
  decodable db -> decodable (db_Update fn db).1.
Proof.
  intros Hfn Hdb. rewrite db_Update_unfold.
  destruct (fn db).2; simpl; [exact Hdb | apply Hfn, Hdb].
Qed.

Lemma exec_decodable op (db : Bucket) :
  decodable db -> decodable (exec op db).1.
Proof.
  intros Hdb.
  destruct op; simpl; try exact Hdb;
    apply db_Update_decodable; try exact Hdb; intros bucket Hb;
    repeat match goal with
           | |- context [getItem ?n ?b ?k] => destruct (getItem n b k); simpl
           | |- context [CastHash ?i] => destruct (CastHash i); simpl
           | |- context [GetValue ?h ?f] => destruct (GetValue h f); simpl
           end;
    first [ exact Hb
          | apply saveItem_decodable; exact Hb
          | apply delete_decodable; exact Hb ].
Qed.

Lemma gcDelete_decodable deleteKeys (db : Bucket) :
  decodable db -> decodable (gcDelete deleteKeys db).1.
Proof.
  intros Hdb key data Hl. rewrite gcDelete_lookup in Hl.
  destruct (decide (key ∈ deleteKeys)); [discriminate |]. exact (Hdb _ _ Hl).
Qed.

Lemma step_decodable s st : decodable st.1 -> decodable (step s st).1.
Proof.
  intros Hdb. destruct st as [db pending].
  destruct s as [op | clock |]; cbn [step fst snd] in *.
  - apply exec_decodable, Hdb.
  - exact Hdb.
  - destruct pending as [deleteKeys |]; cbn [fst]; [| exact Hdb].
    apply gcDelete_decodable, Hdb.
Qed.

Lemma decodable_Cursor (db : Bucket) :
  decodable db -> Forall (fun kv => is_Some (gobDecode kv.2)) (Cursor db).
Proof.
  intros Hdb. apply Forall_forall. intros [key data] Hin.
  apply elem_of_Cursor in Hin. exact (Hdb _ _ Hin).
Qed.

End Invariant.

(** X14. The operations and the sweep write only records that decode: if
    every record of a store decodes, so does every record of the store
    after any run of contract calls and sweep passes, and on that store
    neither the loop of [Keys] nor the read pass of the sweep ends with an
    error. *)
Theorem run_decodable `{Gob} steps st :
  decodable st.1 ->
  decodable (run steps st).1 /\
  forall clock,
    (keysLoop clock (Cursor (run steps st).1) []).2 = None /\
    (gcScan clock (Cursor (run steps st).1) []).2 = None.
Proof.
  intros Hdb.
  assert (Hrun : decodable (run steps st).1).
  { revert st Hdb. unfold run.
    induction steps as [| s steps IH]; intros st Hdb; [exact Hdb |].
    simpl. apply IH. apply step_decodable, Hdb. }
  split; [exact Hrun |]. intros clock.
  rewrite (keysLoop_decodable clock _ [] (decodable_Cursor _ Hrun)).
  rewrite (gcScan_decodable clock _ [] (decodable_Cursor _ Hrun)).
  split; reflexivity.
Qed.

(** X15. After a sweep cycle on a store whose records all decode, every
    item left is alive at the instant the cycle checked it, every record
    left is the one the store had, and a second cycle with the same clock
    readings changes nothing. *)
Theorem gcCycle_idempotent `{Gob} clock (db : Bucket) :
  decodable db ->
  (forall key item,
     readItem (gcCycle clock db db) key = Some item ->
     IsAlive (clock key) item = true) /\
  (forall key data,
     gcCycle clock db db !! key = Some data -> db !! key = Some data) /\
  gcCycle clock (gcCycle clock db db) (gcCycle clock db db) = gcCycle clock db db.
Proof.
  intros Hdb.
  destruct (gcCycle_decodable clock db Hdb) as (ks & _ & _ & Hks & Hlookup).
  assert (Hsub : forall key data,
             gcCycle clock db db !! key = Some data -> db !! key = Some data).
  { intros key data Hl. rewrite Hlookup in Hl.
    destruct (decide (key ∈ ks)); [discriminate | exact Hl]. }
  assert (Halive : forall key item,
             readItem (gcCycle clock db db) key = Some item ->
             IsAlive (clock key) item = true).
  { intros key item Hread. unfold readItem in Hread. rewrite Hlookup in Hread.
    destruct (decide (key ∈ ks)) as [Hin | Hnin]; [discriminate |].
    destruct (IsAlive (clock key) item) eqn:Ha; [reflexivity |].
    destruct Hnin. apply Hks. exists item. split; [exact Hread | exact Ha]. }
  split; [exact Halive |]. split; [exact Hsub |].
  assert (Hdb1 : decodable (gcCycle clock db db)).
  { intros key data Hl. exact (Hdb _ _ (Hsub _ _ Hl)). }
  destruct (gcCycle_decodable clock _ Hdb1) as (ks1 & _ & _ & Hks1 & Hlookup1).
  apply bucket_eq. intros key. rewrite Hlookup1.
  destruct (decide (key ∈ ks1)) as [Hin | Hnin]; [| reflexivity].
  apply Hks1 in Hin as (item & Hread & Hdead).
  rewrite (Halive _ _ Hread) in Hdead. discriminate.
Qed.

(** * The parsers of the client *)

Section Parsers.

Import regexp client.

Lemma length_append_string (a b : string) :
  String.length (a +:+ b) = (String.length a + String.length b)%nat.
Proof. induction a as [| c a IH]; simpl; [reflexivity | rewrite IH; reflexivity]. Qed.

Lemma substring_prefix (a b : string) :
  String.substring 0 (String.length a) (a +:+ b) = a.
Proof.
  induction a as [| c a IH]; simpl.
  - destruct b; reflexivity.
  - rewrite IH. reflexivity.
Qed.

Lemma consumed_append (a b : string) : consumed (a +:+ b) b = a.
Proof.
  unfold consumed. rewrite length_append_string.
  replace (String.length a + String.length b - String.length b)%nat
    with (String.length a) by lia.
  apply substring_prefix.
Qed.

Lemma consumed_all (a : string) : consumed a EmptyString = a.
Proof.
  unfold consumed. simpl. rewrite Nat.sub_0_r.
  induction a as [| c a IH]; simpl; [| rewrite IH]; reflexivity.
Qed.

Lemma append_inv_head (a b c : string) : a +:+ b = a +:+ c -> b = c.
Proof. induction a as [| x a IH]; simpl; [auto | intros [= Heq]; auto]. Qed.

Lemma dot_quote : dot quote = true.
Proof. reflexivity. Qed.

Lemma word_not_colon c : word c = true -> Ascii.eqb colon c = false.
Proof.
  intros Hw. destruct (Ascii.eqb_spec colon c) as [<- | Hne]; [| reflexivity].
  discriminate.
Qed.

(** With the search anchored at the beginning of the text, only the start
    of the text is tried with success. *)
Lemma search_Bol_later text r s :
  (String.length s < String.length text)%nat ->
  search text (Cat Bol r) s = None.
Proof.
  induction s as [| c s IH]; intros Hlen; cbn [search matchAt];
    destruct (_ =? _)%nat eqn:Heq;
    try (apply Nat.eqb_eq in Heq; lia); [reflexivity |].
  apply IH. simpl in Hlen. lia.
Qed.

Lemma FindStringSubmatch_Bol r text :
  FindStringSubmatch (Cat Bol r) text =
    match matchAt text r text [] (fun rest caps => Some (caps, rest)) with
    | Some (caps, rest) =>
        consumed text rest :: map (fun n => capture n caps) (seq 1 (NumSubexp r))
    | None => []
    end.
Proof.
  unfold FindStringSubmatch.
  assert (Hs : search text (Cat Bol r) text =
               match matchAt text r text [] (fun rest caps => Some (caps, rest)) with
               | Some (caps, rest) => Some (text, caps, rest)
               | None => None
               end).
  { destruct text as [| c text']; cbn [search matchAt]; rewrite Nat.eqb_refl.
    - destruct (matchAt EmptyString r EmptyString [] _) as [[caps rest] |];
        reflexivity.
    - destruct (matchAt (String c text') r (String c text') [] _) as [[caps rest] |];
        [reflexivity |].
      apply search_Bol_later. simpl. lia. }
  rewrite Hs.
  destruct (matchAt text r text [] _) as [[caps rest] |]; reflexivity.
Qed.

(** A greedy run of any characters before a continuation that accepts
    nothing but a closing quote at the end of the text: the run is the
    text up to that quote, and it holds no newline. *)
Lemma star_dot_closing {R : Type} (f : string -> option R) (s : string) (res : R) :
  (forall rest, rest <> String quote EmptyString -> f rest = None) ->
  star dot f s = Some res <->
  exists v, s = v +:+ String quote EmptyString /\ oneLine v = true /\
            f (String quote EmptyString) = Some res.
Proof.
  intros Hf. revert res. induction s as [| c s IH]; intros res; simpl.
  - rewrite Hf by discriminate. split; [discriminate |].
    intros (v & Hv & _). destruct v; discriminate.
  - assert (Htail : forall c' v,
               String c s = String c' v +:+ String quote EmptyString ->
               oneLine (String c' v) = true ->
               f (String quote EmptyString) = Some res ->
               dot c = true /\ star dot f s = Some res).
    { intros c' v Hv Hl Hq. simpl in Hv. injection Hv as -> ->.
      unfold oneLine in Hl; simpl in Hl. apply andb_true_iff in Hl as [Hc Hl].
      split; [exact Hc |]. apply IH. eauto. }
    destruct (dot c) eqn:Hc.
    + destruct (star dot f s) as [r0 |] eqn:Hstar.
      * split.
        -- intros [= ->]. destruct (proj1 (IH res) eq_refl) as (v & -> & Hl & Hq).
           exists (String c v). repeat split; try assumption.
           unfold oneLine in *; simpl. rewrite Hc. exact Hl.
        -- intros (v & Hv & Hl & Hq). destruct v as [| c' v].
           ++ simpl in Hv. injection Hv as -> ->. simpl in Hstar.
              rewrite Hf in Hstar by discriminate. discriminate.
           ++ destruct (Htail c' v Hv Hl Hq) as [_ Hs]. exact Hs.
      * split.
        -- intros Hfs.
           destruct (string_dec (String c s) (String quote EmptyString)) as [Heq | Hne].
           ++ exists EmptyString. rewrite <- Heq. auto.
           ++ rewrite Hf in Hfs by exact Hne. discriminate.
        -- intros (v & Hv & Hl & Hq). destruct v as [| c' v].
           ++ simpl in Hv. rewrite Hv. exact Hq.
           ++ destruct (Htail c' v Hv Hl Hq) as [_ Hs]. discriminate.
    + split.
      * intros Hfs. rewrite Hf in Hfs; [discriminate |].
        intros [= -> _]. discriminate.
      * intros (v & Hv & Hl & Hq). destruct v as [| c' v].
        -- simpl in Hv. injection Hv as -> _. discriminate.
        -- destruct (Htail c' v Hv Hl Hq) as [Hd _]. discriminate.
Qed.

(** The end of both patterns: group [n] with a greedy run of any
    characters, a quote, the end of the text. *)
Lemma quoted_tail text n s1 caps k res :
  matchAt text (Cat (Group n (Star dot)) (Cat (Lit quote) Eol)) s1 caps k = Some res <->
  exists v, s1 = v +:+ String quote EmptyString /\ oneLine v = true /\
            k EmptyString ((n, v) :: caps) = Some res.
Proof.
  cbn [matchAt].
  rewrite (star_dot_closing _ s1 res).
  - split; intros (v & -> & Hl & Hk); exists v; (split; [reflexivity |]);
      (split; [exact Hl |]); cbn [matchAt] in Hk |- *;
      rewrite Ascii.eqb_refl, consumed_append in *; exact Hk.
  - intros rest Hne. destruct rest as [| c [| c' r]]; cbn [matchAt]; try reflexivity.
    + destruct (Ascii.eqb_spec quote c) as [<- | ?]; [congruence | reflexivity].
    + destruct (Ascii.eqb quote c); reflexivity.
Qed.

Lemma matchAt_Cat_Lit text c r s caps k :
  matchAt text (Cat (Lit c) r) s caps k =
    match s with
    | String c' s' => if Ascii.eqb c c' then matchAt text r s' caps k else None
    | EmptyString => None
    end.
Proof. destruct s; reflexivity. Qed.

Lemma matchAt_Cat_Group_Plus text n cls r s caps k :
  matchAt text (Cat (Group n (Plus cls)) r) s caps k =
    match s with
    | String c s' =>
        if cls c
        then star cls (fun rest => matchAt text r rest ((n, consumed s rest) :: caps) k) s'
        else None
    | EmptyString => None
    end.
Proof. destruct s; reflexivity. Qed.

(** A greedy run of word characters before a continuation that refuses
    every text that starts with a word character: the run is the longest
    one, and the continuation takes the text that follows it. *)
Lemma star_word_stop {R : Type} (f : string -> option R) (s : string) (res : R) :
  (forall c r, word c = true -> f (String c r) = None) ->
  star word f s = Some res <->
  exists w rest, s = w +:+ rest /\
                 forallb word (list_ascii_of_string w) = true /\
                 f rest = Some res.
Proof.
  intros Hf. revert res. induction s as [| c s IH]; intros res; simpl.
  - split.
    + intros Hfs. exists EmptyString, EmptyString. auto.
    + intros (w & rest & Hs & _ & Hfr). destruct w; [| discriminate].
      change (EmptyString +:+ rest) with rest in Hs. subst rest. exact Hfr.
  - destruct (word c) eqn:Hc.
    + rewrite (Hf c s Hc).
      assert (Hstep : star word f s = Some res <->
                      exists w rest, String c s = w +:+ rest /\
                        forallb word (list_ascii_of_string w) = true /\
                        f rest = Some res).
      { rewrite IH. split.
        - intros (w & rest & -> & Hw & Hfr). exists (String c w), rest.
          simpl. rewrite Hc. auto.
        - intros (w & rest & Hs & Hw & Hfr). destruct w as [| c' w].
          + change (EmptyString +:+ rest) with rest in Hs. subst rest. rewrite (Hf c s Hc) in Hfr. discriminate.
          + simpl in Hs, Hw. injection Hs as -> ->.
            apply andb_true_iff in Hw as [_ Hw]. eauto. }
      destruct (star word f s) as [r0 |]; [exact Hstep |].
      split; [discriminate |]. intros Hex. apply Hstep in Hex. discriminate.
    + split.
      * intros Hfs. exists EmptyString, (String c s). auto.
      * intros (w & rest & Hs & Hw & Hfr). destruct w as [| c' w].
        -- change (EmptyString +:+ rest) with rest in Hs. subst rest. exact Hfr.
        -- simpl in Hs, Hw. injection Hs as -> ->. rewrite Hc in Hw. discriminate.
Qed.

Lemma append_inv_tail (a b c : string) : a +:+ c = b +:+ c -> a = b.
Proof.
  intros Heq. rewrite <- (consumed_append a c), <- (consumed_append b c), Heq.
  reflexivity.
Qed.

(** What the pattern of [valueRegexp] matches after the beginning of the
    text, and the group it fills. *)
Lemma value_match text res :
  matchAt text
    (Cat (Lit quote) (Cat (Group 1 (Star dot)) (Cat (Lit quote) Eol)))
    text [] (fun rest caps => Some (caps, rest)) = Some res <->
  exists v, text = quoted v /\ oneLine v = true /\ res = ([(1%nat, v)], EmptyString).
Proof.
  rewrite matchAt_Cat_Lit. destruct text as [| c s1].
  - split; [discriminate |]. intros (v & Hv & _). discriminate.
  - destruct (Ascii.eqb_spec quote c) as [<- | Hne].
    + rewrite quoted_tail. split.
      * intros (v & -> & Hl & [= <-]). exists v. auto.
      * intros (v & Hv & Hl & ->). unfold quoted in Hv. injection Hv as ->.
        exists v. auto.
    + split; [discriminate |]. intros (v & Hv & _). unfold quoted in Hv.
      injection Hv as Hc _. congruence.
Qed.

(** What the pattern of [hashFieldRegexp] matches after the beginning of
    the text, and the groups it fills. *)
Lemma hashField_match text res :
  matchAt text
    (Cat (Group 1 (Plus word))
       (Cat (Lit colon)
          (Cat (Lit quote)
             (Cat (Group 2 (Star dot)) (Cat (Lit quote) Eol)))))
    text [] (fun rest caps => Some (caps, rest)) = Some res <->
  exists field v,
    text = field +:+ String colon (quoted v) /\
    isWord field = true /\ oneLine v = true /\
    res = ([(2%nat, v); (1%nat, field)], EmptyString).
Proof.
  rewrite matchAt_Cat_Group_Plus. destruct text as [| c s].
  - split; [discriminate |]. intros (field & v & Hv & Hw & _).
    destruct field; discriminate.
  - assert (Hrefuse : forall c0 r,
               word c0 = true ->
               matchAt (String c s)
                 (Cat (Lit colon)
                    (Cat (Lit quote)
                       (Cat (Group 2 (Star dot)) (Cat (Lit quote) Eol))))
                 (String c0 r) [(1%nat, consumed (String c s) (String c0 r))]
                 (fun rest caps => Some (caps, rest)) = None).
    { intros c0 r Hw. rewrite matchAt_Cat_Lit, (word_not_colon c0 Hw). reflexivity. }
    destruct (word c) eqn:Hc.
    + rewrite (star_word_stop _ s res Hrefuse). split.
      * intros (w & rest & -> & Hw & Hm).
        rewrite matchAt_Cat_Lit in Hm. destruct rest as [| c1 r1]; [discriminate |].
        destruct (Ascii.eqb_spec colon c1) as [<- | ?]; [| discriminate].
        rewrite matchAt_Cat_Lit in Hm. destruct r1 as [| c2 r2]; [discriminate |].
        destruct (Ascii.eqb_spec quote c2) as [<- | ?]; [| discriminate].
        apply quoted_tail in Hm as (v & -> & Hl & [= <-]).
        exists (String c w), v.
        change (String c (w +:+ String colon (String quote (v +:+ String quote EmptyString))))
          with (String c w +:+ String colon (quoted v)).
        rewrite consumed_append.
        repeat split; try assumption. simpl. rewrite Hc. exact Hw.
      * intros (field & v & Hv & Hw & Hl & ->).
        destruct field as [| c' w]; [discriminate |].
        simpl in Hv, Hw. injection Hv as <- ->.
        apply andb_true_iff in Hw as [_ Hw].
        exists w, (String colon (quoted v)). split; [reflexivity |].
        split; [exact Hw |].
        rewrite matchAt_Cat_Lit, Ascii.eqb_refl. unfold quoted.
        rewrite matchAt_Cat_Lit, Ascii.eqb_refl.
        apply quoted_tail. exists v. split; [reflexivity |]. split; [exact Hl |].
        change (String c (w +:+ String colon (String quote (v +:+ String quote EmptyString))))
          with (String c w +:+ String colon (String quote (v +:+ String quote EmptyString))).
        rewrite consumed_append. reflexivity.
    + split; [discriminate |]. intros (field & v & Hv & Hw & _).
      destruct field as [| c' w]; [discriminate |].
      simpl in Hv, Hw. injection Hv as -> _. rewrite Hc in Hw. discriminate.
Qed.

End Parsers.

(** X16. [parseValue] accepts exactly the texts that are one value between
    two quotes, where the value holds no newline (it may hold quotes), and
    returns that value; every other text is refused with the message
    "Invalid value format: " followed by the text. *)
Theorem parseValue_spec (str : string) :
  (forall v,
     client.parseValue str = client.Parsed v <->
     str = client.quoted v /\ client.oneLine v = true) /\
  ((forall v, client.oneLine v = true -> str <> client.quoted v) ->
   client.parseValue str = client.Invalid ("Invalid value format: " +:+ str)).
Proof.
  unfold client.parseValue, client.valueRegexp.
  rewrite FindStringSubmatch_Bol.
  pose proof (value_match str) as Hm.
  destruct (regexp.matchAt str _ str [] _) as [res |].
  - destruct (proj1 (Hm res) eq_refl) as (v0 & -> & Hl0 & ->).
    simpl. split.
    + intros v. split.
      * intros [= <-]. auto.
      * intros [Hq _]. unfold client.quoted in Hq. injection Hq as Hq.
        apply append_inv_tail in Hq. congruence.
    + intros Hno. destruct (Hno v0 Hl0 eq_refl).
  - simpl. split; [| reflexivity].
    intros v. split; [discriminate |].
    intros [-> Hl].
    assert (Hsome : None = Some ([(1%nat, v)], EmptyString))
      by (apply Hm; eauto).
    discriminate.
Qed.

(** X17. [parseHashField] accepts exactly the texts made of a field name,
    a colon and a quoted value, where the name is a non-empty run of
    letters, digits and underscores and the value holds no newline, and
    returns the name and the value; every other text is refused with the
    message "Invalid hash field format: " followed by the text. *)
Theorem parseHashField_spec (str : string) :
  (forall field v,
     client.parseHashField str = client.Parsed (field, v) <->
     str = field +:+ String client.colon (client.quoted v) /\
     client.isWord field = true /\ client.oneLine v = true) /\
  ((forall field v,
      client.isWord field = true -> client.oneLine v = true ->
      str <> field +:+ String client.colon (client.quoted v)) ->
   client.parseHashField str
   = client.Invalid ("Invalid hash field format: " +:+ str)).
Proof.
  unfold client.parseHashField, client.hashFieldRegexp.
  rewrite FindStringSubmatch_Bol.
  pose proof (hashField_match str) as Hm.
  destruct (regexp.matchAt str _ str [] _) as [res |].
  - destruct (proj1 (Hm res) eq_refl) as (f0 & v0 & Hstr & Hw0 & Hl0 & ->).
    simpl. split.
    + intros field v. split.
      * intros [= <- <-]. auto.
      * intros (Hq & Hw & Hl).
        assert (Hsome : Some ([(2%nat, v0); (1%nat, f0)], EmptyString)
                        = Some ([(2%nat, v); (1%nat, field)], EmptyString))
          by (apply Hm; eauto 6).
        congruence.
    + intros Hno. destruct (Hno f0 v0 Hw0 Hl0 Hstr).
  - simpl. split; [| reflexivity].
    intros field v. split; [discriminate |].
    intros (Hq & Hw & Hl).
    assert (Hsome : None = Some ([(2%nat, v); (1%nat, field)], EmptyString))
      by (apply Hm; eauto 6).
    discriminate.
Qed.


(** * The theorems at work on the sample stores *)

Section Examples.

#[local] Existing Instance RefCodec.gob.

Import Sample.

Lemma Set_ttl_overflow_witness :
  gone (keyState now ∅ "k") = true /\
  now <= later /\
  now <> 9223372036709551616 /\
  key_ok "k" = true /\
  Get later "k" (Set_ now now "k" "v" 9223372037 ∅).1 = Err KeyNotExistsError.
Proof.
  assert (H1 : gone (keyState now ∅ "k") = true) by reflexivity.
  assert (H2 : now <= later) by (vm_compute; discriminate).
  assert (H3 : now <> 9223372036709551616) by discriminate.
  assert (H4 : key_ok "k" = true) by reflexivity.
  split; [exact H1 |]. split; [exact H2 |]. split; [exact H3 |]. split; [exact H4 |].
  exact (proj2 (proj2 (proj1 (Set_ttl_overflow now now later "k" "v" ∅ H1 H2 H3) H4))).
Defined.



(** What the statement above leaves open, a sweep in flight: a read pass
    that ran while ["k"] was dead has collected it, and the write pass
    that follows a [Set] of ["k"] deletes the new record, since it
    deletes by key; [Get] then finds no key. With the [Set] before the
    read pass the record stays. *)
Example sweep_in_flight :
  gone (keyState later oneSecond "k") = true /\
  Get later "k"
    (run [SweepScan (fun _ => later);
          Call (OpSet later later "k" "w" 0);
          SweepDelete]
       (oneSecond, None)).1 = Err KeyNotExistsError /\
  Get later "k"
    (run [Call (OpSet later later "k" "w" 0);
          SweepScan (fun _ => later);
          SweepDelete]
       (oneSecond, None)).1 = Ok "w".
Proof. repeat split; vm_compute; reflexivity. Qed.

(** The longest key that [Put] takes has 32768 bytes; with one byte more
    [Set] returns the second error of [Put]. *)
Example key_too_large :
  key_ok (keyOf 32768) = true /\
  key_ok (keyOf 32769) = false /\
  (Set_ now now (keyOf 32769) "v" 0 ∅).2 = Some ErrKeyTooLarge.
Proof. repeat split; vm_compute; reflexivity. Qed.

(** C3 as stated fails on the blank key: it is absent from the empty
    store, and neither [Set] nor [HashCreate] succeeds on it. *)
Lemma create_unless_alive_counterexample :
  ~ (forall key value ttl (db : Bucket),
       gone (keyState now db key) = true ->
       (Set_ now now key value ttl db).2 = None) /\
  ~ (forall key ttl (db : Bucket),
       gone (keyState now db key) = true ->
       (HashCreate now now key ttl db).2 = None) /\
  gone (keyState now ∅ EmptyString) = true /\
  Set_ now now EmptyString "v" 0 ∅ = (∅, Some ErrKeyRequired) /\
  HashCreate now now EmptyString 0 ∅ = (∅, Some ErrKeyRequired).
Proof.
  split; [| split; [| repeat split; vm_compute; reflexivity]].
  - intros Hclaim.
    assert (Hgone : gone (keyState now ∅ EmptyString) = true) by reflexivity.
    specialize (Hclaim EmptyString "v" 0 ∅ Hgone).
    vm_compute in Hclaim. discriminate.
  - intros Hclaim.
    assert (Hgone : gone (keyState now ∅ EmptyString) = true) by reflexivity.
    specialize (Hclaim EmptyString 0 ∅ Hgone).
    vm_compute in Hclaim. discriminate.
Qed.

Lemma create_unless_alive_witness :
  key_ok "k" = true /\
  gone (keyState later oneSecond "k") = true /\
  (Set_ later later "k" "w" 0 oneSecond).2 = None /\
  readItem (Set_ later later "k" "w" 0 oneSecond).1 "k"
    = Some {| Value := StringValue "w"; ExpireTime := 0 |} /\
  readItem (HashCreate later later "k" 0 oneSecond).1 "k"
    = Some {| Value := HashValue ∅; ExpireTime := 0 |} /\
  (exists item, keyState now oneSecond "k" = Alive item) /\
  (Set_ now now "k" "w" 0 oneSecond).2 = Some KeyAlreadyExistsError /\
  key_ok EmptyString = false /\
  HashCreate now now EmptyString 0 oneSecond = (oneSecond, Some ErrKeyRequired).
Proof.
  assert (H0 : key_ok "k" = true) by reflexivity.
  assert (H1 : gone (keyState later oneSecond "k") = true) by (vm_compute; reflexivity).
  assert (H2 : exists item, keyState now oneSecond "k" = Alive item)
    by (eexists; vm_compute; reflexivity).
  assert (H3 : key_ok EmptyString = false) by reflexivity.
  destruct (create_unless_alive later later "k" "w" 0 oneSecond)
    as (_ & Hset & _ & _ & Hcreate & _).
  destruct (Hset H0 H1) as (Herr & Hread & _).
  destruct (Hcreate H0 H1) as (_ & Hcread & _).
  split; [exact H0 |]. split; [exact H1 |]. split; [exact Herr |].
  split; [exact Hread |]. split; [exact Hcread |].
  split; [exact H2 |].
  split; [exact (proj2 (proj1 (create_unless_alive now now "k" "w" 0 oneSecond)) H2) |].
  split; [exact H3 |].
  exact (proj1 (proj2 (proj2 (proj2 (proj2 (proj2
           (create_unless_alive now now EmptyString "w" 0 oneSecond)))))) H3).
Defined.

Lemma gc_cycle_spec_witness :
  readItem permanent "k" = Some {| Value := StringValue "v"; ExpireTime := 0 |} /\
  gcCycle (fun _ => later) permanent permanent !! "k" = permanent !! "k" /\
  damaged !! "z" = Some [x2a] /\
  gobDecode [x2a] = None /\
  gcCycle (fun _ => later) damaged damaged = damaged.
Proof.
  assert (H1 : readItem permanent "k"
               = Some {| Value := StringValue "v"; ExpireTime := 0 |})
    by (vm_compute; reflexivity).
  assert (H2 : damaged !! "z" = Some [x2a]) by (vm_compute; reflexivity).
  assert (H3 : gobDecode [x2a] = None) by reflexivity.
  split; [exact H1 |].
  split; [exact (proj1 (proj2 (proj2 (gc_cycle_spec (fun _ => later) permanent)))
                   "k" _ permanent H1 eq_refl) |].
  split; [exact H2 |]. split; [exact H3 |].
  exact (proj2 (proj2 (proj2 (proj2 (gc_cycle_spec (fun _ => later) damaged)))
                  "z" [x2a] H2 H3) damaged).
Defined.

Lemma Update_spec_witness :
  keyState now hashed "h"
    = Alive {| Value := HashValue {[ "f" := "x" ]}; ExpireTime := 0 |} /\
  (Update now "h" "s" hashed).2 = None /\
  Get now "h" (Update now "h" "s" hashed).1 = Ok "s".
Proof.
  assert (H1 : keyState now hashed "h"
               = Alive {| Value := HashValue {[ "f" := "x" ]}; ExpireTime := 0 |})
    by (vm_compute; reflexivity).
  split; [exact H1 |].
  destruct (proj1 (Update_spec now "h" "s" hashed) _ H1) as (Herr & _ & Hget & _).
  split; [exact Herr | exact Hget].
Defined.

(** C7 as stated fails on the blank key: it is absent from the empty
    store, and [HashSet] creates no hash under it. *)
Lemma HashSet_spec_counterexample :
  ~ (forall key field value (db : Bucket),
       gone (keyState now db key) = true ->
       (HashSet now key field value db).2 = None) /\
  gone (keyState now ∅ EmptyString) = true /\
  HashSet now EmptyString "f" "x" ∅ = (∅, Some ErrKeyRequired) /\
  HashGetAll now EmptyString (HashSet now EmptyString "f" "x" ∅).1
  = Err KeyNotExistsError.
Proof.
  split; [| repeat split; vm_compute; reflexivity].
  intros Hclaim.
  assert (Hgone : gone (keyState now ∅ EmptyString) = true) by reflexivity.
  specialize (Hclaim EmptyString "f" "x" ∅ Hgone).
  vm_compute in Hclaim. discriminate.
Qed.

Lemma HashSet_spec_witness :
  key_ok "k" = true /\
  gone (keyState later oneSecond "k") = true /\
  (HashSet later "k" "f" "x" oneSecond).2 = None /\
  HashGet later "k" "f" (HashSet later "k" "f" "x" oneSecond).1 = Ok "x" /\
  keyState now oneSecond "k"
    = Alive {| Value := StringValue "v"; ExpireTime := now + 1000000000 |} /\
  HashSet now "k" "f" "x" oneSecond = (oneSecond, Some KeyHashTypeError) /\
  key_ok EmptyString = false /\
  HashSet now EmptyString "f" "x" oneSecond = (oneSecond, Some ErrKeyRequired).
Proof.
  assert (H0 : key_ok "k" = true) by reflexivity.
  assert (H1 : gone (keyState later oneSecond "k") = true) by (vm_compute; reflexivity).
  assert (H2 : keyState now oneSecond "k"
               = Alive {| Value := StringValue "v"; ExpireTime := now + 1000000000 |})
    by (vm_compute; reflexivity).
  assert (H3 : key_ok EmptyString = false) by reflexivity.
  destruct (proj1 (HashSet_spec later "k" "f" "x" oneSecond) H0 H1)
    as (Herr & _ & Hget).
  split; [exact H0 |]. split; [exact H1 |]. split; [exact Herr |].
  split; [exact (Hget later) |].
  split; [exact H2 |].
  split.
  { refine (proj1 (proj2 (proj2 (HashSet_spec now "k" "f" "x" oneSecond))) _ H2 _).
    intros hash; discriminate. }
  split; [exact H3 |].
  exact (proj1 (proj2 (HashSet_spec now EmptyString "f" "x" oneSecond)) H3).
Defined.

Lemma Expire_ttl_overflow_witness :
  keyState now permanent "k"
    = Alive {| Value := StringValue "v"; ExpireTime := 0 |} /\
  now <= later /\
  now <> 9223372036709551616 /\
  keyState later (Expire now now "k" 9223372037 permanent).1 "k"
    = Dead {| Value := StringValue "v";
              ExpireTime := now - 9223372036709551616 |}.
Proof.
  assert (H1 : keyState now permanent "k"
               = Alive {| Value := StringValue "v"; ExpireTime := 0 |})
    by (vm_compute; reflexivity).
  assert (H2 : now <= later) by (vm_compute; discriminate).
  assert (H3 : now <> 9223372036709551616) by discriminate.
  split; [exact H1 |]. split; [exact H2 |]. split; [exact H3 |].
  exact (proj2 (Expire_ttl_overflow now now later "k" permanent _ H1 H2 H3)).
Defined.

(** C9 at work. In [oneSecond] the key ["k"] holds a string whose ttl
    has run out at [later]: it is dead, and of a type [HashSet] does not
    work on. [HashLen] answers [KeyNotExistsError]; [HashSet] answers
    without an error and leaves a hash under the key. While the string is
    alive both answer [KeyHashTypeError]. *)
Lemma liveness_before_type_witness :
  op_keyState (OpHashLen later "k") oneSecond
    = Some (Dead {| Value := StringValue "v"; ExpireTime := now + 1000000000 |}) /\
  (exec (OpHashLen later "k") oneSecond).2 = Err KeyNotExistsError /\
  key_ok "k" = true /\
  gone (keyState later oneSecond "k") = true /\
  typed (OpHashSet later "k" "f" "x") = true /\
  (exec (OpHashSet later "k" "f" "x") oneSecond).2 = Ok RNil /\
  (exec (OpHashSet later "k" "f" "x") oneSecond).2 <> Err KeyNotExistsError /\
  readItem (exec (OpHashSet later "k" "f" "x") oneSecond).1 "k"
    = Some {| Value := HashValue {[ "f" := "x" ]}; ExpireTime := 0 |} /\
  (exec (OpHashSet now "k" "f" "x") oneSecond).2 = Err KeyHashTypeError /\
  exists item,
    op_keyState (OpHashSet now "k" "f" "x") oneSecond = Some (Alive item) /\
    mismatch KeyHashTypeError item.
Proof.
  assert (H1 : op_keyState (OpHashLen later "k") oneSecond
               = Some (Dead {| Value := StringValue "v";
                               ExpireTime := now + 1000000000 |}))
    by (vm_compute; reflexivity).
  assert (H2 : (exec (OpHashSet now "k" "f" "x") oneSecond).2 = Err KeyHashTypeError)
    by (vm_compute; reflexivity).
  assert (H3 : key_ok "k" = true) by reflexivity.
  assert (H4 : gone (keyState later oneSecond "k") = true) by (vm_compute; reflexivity).
  split; [exact H1 |].
  split; [exact (proj1 (liveness_before_type (OpHashLen later "k") oneSecond)
                   _ eq_refl eq_refl H1 eq_refl) |].
  split; [exact H3 |]. split; [exact H4 |].
  destruct (proj1 (proj2 (liveness_before_type (OpHashSet later "k" "f" "x") oneSecond))
              later "k" "f" "x" eq_refl H3 H4) as (Ht & Hok & Hne & Hread).
  split; [exact Ht |]. split; [exact Hok |]. split; [exact Hne |].
  split; [exact Hread |].
  split; [exact H2 |].
  exact (proj2 (proj2 (liveness_before_type (OpHashSet now "k" "f" "x") oneSecond))
           KeyHashTypeError H2 eq_refl).
Defined.

Lemma error_leaves_store_witness :
  keyState later oneSecond "k"
    = Dead {| Value := StringValue "v"; ExpireTime := now + 1000000000 |} /\
  Delete later "k" oneSecond = (oneSecond, Some KeyNotExistsError) /\
  (exec (OpGet later "k") oneSecond).2 = Err KeyNotExistsError /\
  (exec (OpGet later "k") oneSecond).1 = oneSecond.
Proof.
  assert (H1 : keyState later oneSecond "k"
               = Dead {| Value := StringValue "v"; ExpireTime := now + 1000000000 |})
    by (vm_compute; reflexivity).
  assert (H2 : (exec (OpGet later "k") oneSecond).2 = Err KeyNotExistsError)
    by (vm_compute; reflexivity).
  split; [exact H1 |].
  split; [exact (proj1 (proj1 (proj2 (error_leaves_store oneSecond)) later "k" _ H1)) |].
  split; [exact H2 |].
  exact (proj1 (error_leaves_store oneSecond) _ _ H2).
Defined.

End Examples.

(** * The further properties at work on the sample stores *)

Section MoreExamples.

#[local] Existing Instance RefCodec.gob.

Import Sample.

Lemma decodable_permanent : decodable permanent.
Proof. exact (exec_decodable (OpSet now now "k" "v" 0) ∅ decodable_empty). Qed.

Lemma decodable_oneSecond : decodable oneSecond.
Proof. exact (exec_decodable (OpSet now now "k" "v" 1) ∅ decodable_empty). Qed.

Lemma Keys_spec_witness :
  decodable permanent /\ "k" ∈ Keys (fun _ => later) permanent.
Proof.
  split; [exact decodable_permanent |].
  apply (proj2 (proj2 (Keys_spec (fun _ => later) permanent decodable_permanent))).
  eexists. vm_compute. reflexivity.
Defined.

Lemma Keys_truncated_witness :
  damaged !! "z" = Some [x2a] /\
  gobDecode [x2a] = None /\
  str_le "z" "zz" /\
  "zz" ∉ Keys (fun _ => now) (<["zz" := [x00; x00; x02; x00]]> damaged).
Proof.
  assert (H1 : (<["zz" := [x00; x00; x02; x00]]> damaged : Bucket) !! "z"
               = Some [x2a]) by (vm_compute; reflexivity).
  assert (H2 : gobDecode [x2a] = None) by reflexivity.
  assert (H3 : str_le "z" "zz") by reflexivity.
  split; [vm_compute; reflexivity |]. split; [exact H2 |]. split; [exact H3 |].
  exact (proj2 (proj2 (Keys_truncated (fun _ => now) _)) "z" _ H1 H2 "zz" H3).
Defined.

Lemma Delete_spec_witness :
  keyState now permanent "k"
    = Alive {| Value := StringValue "v"; ExpireTime := 0 |} /\
  Get later "k" (Delete now "k" permanent).1 = Err KeyNotExistsError.
Proof.
  assert (H1 : keyState now permanent "k"
               = Alive {| Value := StringValue "v"; ExpireTime := 0 |})
    by (vm_compute; reflexivity).
  split; [exact H1 |].
  exact (proj1 (proj2 (proj2 (Delete_spec now "k" permanent _ H1))) later).
Defined.

Lemma HashSet_fields_witness :
  keyState now hashed "h"
    = Alive {| Value := HashValue {[ "f" := "x" ]}; ExpireTime := 0 |} /\
  HashGetAll now "h" (HashSet now "h" "g" "y" hashed).1
    = Ok (<["g" := "y"]> {[ "f" := "x" ]}) /\
  HashGet now "h" "f" (HashSet now "h" "g" "y" hashed).1
    = HashGet now "h" "f" hashed.
Proof.
  assert (H1 : keyState now hashed "h"
               = Alive {| Value := HashValue {[ "f" := "x" ]}; ExpireTime := 0 |})
    by (vm_compute; reflexivity).
  split; [exact H1 |].
  destruct (HashSet_fields now "h" "g" "y" hashed _ _ H1 eq_refl) as (Hall & Hget & _).
  split; [exact Hall |]. apply Hget. discriminate.
Defined.

Lemma HashDelete_spec_witness :
  keyState now hashed "h"
    = Alive {| Value := HashValue {[ "f" := "x" ]}; ExpireTime := 0 |} /\
  ({[ "f" := "x" ]} : Hash) !! "f" = Some "x" /\
  (HashDelete now "h" "f" hashed).2 = None /\
  HashGet now "h" "f" (HashDelete now "h" "f" hashed).1 = Err FieldNotExistError.
Proof.
  assert (H1 : keyState now hashed "h"
               = Alive {| Value := HashValue {[ "f" := "x" ]}; ExpireTime := 0 |})
    by (vm_compute; reflexivity).
  assert (H2 : ({[ "f" := "x" ]} : Hash) !! "f" = Some "x")
    by (vm_compute; reflexivity).
  split; [exact H1 |]. split; [exact H2 |].
  destruct (HashDelete_spec now "h" "f" hashed _ _ "x" H1 eq_refl H2)
    as (Herr & _ & Hget & _).
  split; [exact Herr | exact Hget].
Defined.

Lemma HashKeys_spec_witness :
  keyState now hashed "h"
    = Alive {| Value := HashValue {[ "f" := "x" ]}; ExpireTime := 0 |} /\
  exists fields,
    HashKeys now "h" hashed = Ok fields /\ "f" ∈ fields /\
    HashLen now "h" hashed = Ok (Z.of_nat (length fields)).
Proof.
  assert (H1 : keyState now hashed "h"
               = Alive {| Value := HashValue {[ "f" := "x" ]}; ExpireTime := 0 |})
    by (vm_compute; reflexivity).
  split; [exact H1 |].
  destruct (HashKeys_spec now "h" hashed _ _ H1 eq_refl)
    as (fields & Hk & _ & _ & Hin & _ & _ & Hlen).
  exists fields. split; [exact Hk |]. split; [| exact Hlen].
  apply Hin. exists "x". vm_compute. reflexivity.
Defined.

Lemma wrong_type_rejected_witness :
  keyState now permanent "k"
    = Alive {| Value := StringValue "v"; ExpireTime := 0 |} /\
  HashLen now "k" permanent = Err KeyHashTypeError /\
  HashSet now "k" "f" "x" permanent = (permanent, Some KeyHashTypeError).
Proof.
  assert (H1 : keyState now permanent "k"
               = Alive {| Value := StringValue "v"; ExpireTime := 0 |})
    by (vm_compute; reflexivity).
  split; [exact H1 |].
  destruct (proj1 (wrong_type_rejected now "k" permanent _ H1) "v" eq_refl)
    as (_ & _ & _ & Hlen & _ & Hset & _).
  split; [exact Hlen | exact (Hset "f" "x")].
Defined.

Lemma getExpireTime_exact_iff_witness :
  0 < 5 /\ getExpireTime now 5 = now + 5 * 1000000000 /\
  0 < 9223372037 /\ getExpireTime now 9223372037 <> now + 9223372037 * 1000000000.
Proof.
  assert (H1 : 0 < 5) by reflexivity.
  assert (H2 : 0 < 9223372037) by reflexivity.
  split; [exact H1 |].
  split; [apply (proj1 (getExpireTime_exact_iff now 5 H1)); discriminate |].
  split; [exact H2 |].
  intros Heq. apply (proj1 (getExpireTime_exact_iff now 9223372037 H2)) in Heq.
  exact (Heq eq_refl).
Defined.

Lemma Set_ttl_Get_witness :
  key_ok "k" = true /\
  gone (keyState now ∅ "k") = true /\
  0 < 1 <= MaxSeconds /\
  0 <= now /\
  Get now "k" oneSecond = Ok "v" /\
  Get later "k" oneSecond = Err KeyNotExistsError.
Proof.
  assert (H1 : gone (keyState now ∅ "k") = true) by reflexivity.
  assert (H2 : 0 < 1 <= MaxSeconds) by (split; [reflexivity | discriminate]).
  assert (H3 : 0 <= now) by discriminate.
  assert (H0 : key_ok "k" = true) by reflexivity.
  split; [exact H0 |]. split; [exact H1 |]. split; [exact H2 |]. split; [exact H3 |].
  destruct (Set_ttl_Get now now "k" "v" 1 ∅ H0 H1 H2 H3) as (_ & _ & Hbefore & Hafter).
  split; [apply Hbefore; reflexivity | apply Hafter; discriminate].
Defined.

Lemma Expire_frame_witness :
  keyState now oneSecond "k"
    = Alive {| Value := StringValue "v"; ExpireTime := now + 1000000000 |} /\
  readItem (Expire now now "k" 0 oneSecond).1 "k"
    = Some {| Value := StringValue "v"; ExpireTime := 0 |} /\
  gone (keyState later oneSecond "k") = true /\
  Expire later later "k" 0 oneSecond = (oneSecond, Some KeyNotExistsError).
Proof.
  assert (H1 : keyState now oneSecond "k"
               = Alive {| Value := StringValue "v"; ExpireTime := now + 1000000000 |})
    by (vm_compute; reflexivity).
  assert (H2 : gone (keyState later oneSecond "k") = true) by (vm_compute; reflexivity).
  split; [exact H1 |].
  split; [exact (proj1 (proj2 (proj1 (Expire_frame now now "k" 0 oneSecond) _ H1))) |].
  split; [exact H2 |].
  exact (proj2 (Expire_frame later later "k" 0 oneSecond) H2).
Defined.

Lemma Expire_then_Get_witness :
  keyState now oneSecond "k"
    = Alive {| Value := StringValue "v"; ExpireTime := now + 1000000000 |} /\
  0 <= now /\
  Get later "k" (Expire now now "k" 0 oneSecond).1 = Ok "v" /\
  Get later "k" (Expire now now "k" 3 oneSecond).1 = Ok "v".
Proof.
  assert (H1 : keyState now oneSecond "k"
               = Alive {| Value := StringValue "v"; ExpireTime := now + 1000000000 |})
    by (vm_compute; reflexivity).
  assert (H2 : 0 <= now) by discriminate.
  split; [exact H1 |]. split; [exact H2 |]. split.
  - exact (proj1 (Expire_then_Get now now "k" 0 oneSecond _ "v" H1 eq_refl H2)
             eq_refl later).
  - refine (proj1 (proj2 (Expire_then_Get now now "k" 3 oneSecond _ "v" H1 eq_refl H2)
                     _) later _).
    + split; [reflexivity | discriminate].
    + reflexivity.
Defined.

Lemma expired_as_absent_witness :
  op_key (OpSet later later "k" "w" 0) = Some "k" /\
  op_now (OpSet later later "k" "w" 0) = Some later /\
  keyState later oneSecond "k"
    = Dead {| Value := StringValue "v"; ExpireTime := now + 1000000000 |} /\
  (exec (OpSet later later "k" "w" 0) (delete "k" oneSecond)).2
    = (exec (OpSet later later "k" "w" 0) oneSecond).2.
Proof.
  assert (H3 : keyState later oneSecond "k"
               = Dead {| Value := StringValue "v"; ExpireTime := now + 1000000000 |})
    by (vm_compute; reflexivity).
  split; [reflexivity |]. split; [reflexivity |]. split; [exact H3 |].
  exact (proj1 (expired_as_absent (OpSet later later "k" "w" 0) oneSecond "k" later _
                  eq_refl eq_refl H3)).
Defined.

Lemma sweep_invisible_witness :
  op_key (OpGet later "k") = Some "k" /\
  op_now (OpGet later "k") = Some later /\
  later <= later /\
  (Set_ later later "j" "w" 0 oneSecond).1 !! "k" = oneSecond !! "k" /\
  (Set_ later later "j" "w" 0 oneSecond).1 !! "j" <> oneSecond !! "j" /\
  is_Some ((Set_ later later "j" "w" 0 oneSecond).1 !! "k") /\
  gcCycle (fun _ => later) oneSecond (Set_ later later "j" "w" 0 oneSecond).1 !! "k"
    = None /\
  (exec (OpGet later "k")
     (gcCycle (fun _ => later) oneSecond (Set_ later later "j" "w" 0 oneSecond).1)).2
    = (exec (OpGet later "k") (Set_ later later "j" "w" 0 oneSecond).1).2.
Proof.
  assert (H3 : later <= later) by reflexivity.
  assert (H4 : (Set_ later later "j" "w" 0 oneSecond).1 !! "k" = oneSecond !! "k")
    by (vm_compute; reflexivity).
  split; [reflexivity |]. split; [reflexivity |]. split; [exact H3 |].
  split; [exact H4 |].
  split; [vm_compute; discriminate |].
  split; [vm_compute; eauto |].
  split; [vm_compute; reflexivity |].
  exact (sweep_invisible (fun _ => later) (OpGet later "k") oneSecond
           (Set_ later later "j" "w" 0 oneSecond).1 "k" later
           eq_refl eq_refl H3 H4).
Defined.

Lemma run_decodable_witness :
  decodable (∅ : Bucket) /\
  decodable (run [Call (OpSet now now "k" "v" 1);
                  SweepScan (fun _ => later);
                  Call (OpHashSet later "h" "f" "x");
                  SweepDelete] (∅, None)).1.
Proof.
  split; [exact decodable_empty |].
  exact (proj1 (run_decodable _ (∅, None) decodable_empty)).
Defined.

Lemma gcCycle_idempotent_witness :
  decodable oneSecond /\
  gcCycle (fun _ => later)
    (gcCycle (fun _ => later) oneSecond oneSecond)
    (gcCycle (fun _ => later) oneSecond oneSecond)
  = gcCycle (fun _ => later) oneSecond oneSecond.
Proof.
  split; [exact decodable_oneSecond |].
  exact (proj2 (proj2 (gcCycle_idempotent (fun _ => later) oneSecond
                         decodable_oneSecond))).
Defined.

Lemma parseValue_spec_witness :
  client.oneLine "a b" = true /\
  client.parseValue (client.quoted "a b") = client.Parsed "a b" /\
  client.parseValue "a b" = client.Invalid "Invalid value format: a b".
Proof.
  assert (H1 : client.oneLine "a b" = true) by reflexivity.
  split; [exact H1 |]. split.
  - apply (proj1 (parseValue_spec (client.quoted "a b"))). auto.
  - apply (proj2 (parseValue_spec "a b")). intros v _. discriminate.
Defined.

Lemma parseHashField_spec_witness :
  client.isWord "f_1" = true /\
  client.oneLine "a:b" = true /\
  client.parseHashField ("f_1" +:+ String client.colon (client.quoted "a:b"))
    = client.Parsed ("f_1", "a:b").
Proof.
  assert (H1 : client.isWord "f_1" = true) by reflexivity.
  assert (H2 : client.oneLine "a:b" = true) by reflexivity.
  split; [exact H1 |]. split; [exact H2 |].
  apply (proj1 (parseHashField_spec _)). auto.
Defined.

End MoreExamples.
